(** * Shannon-Fano compression: a shallow embedding of [shannon_fano.py]

    Modelling conventions.
    - A character is its code point ([ord]), a [Z]; a text file is the list
      of the characters [read(1)] returns, a binary file the list of its
      bytes (each a [Z] in [0, 256)).
    - A bit-string (a Python [str] that the program only ever builds from
      the literals ['0'] and ['1'] and from [bin]) is a [list bool]:
      [false] is ['0'], [true] is ['1'].
    - Probabilities ([stat/total]) are exact rationals ([Q]).  The rounding
      of the floating-point sums of the source, which can move a cut
      when a running sum and the half are equal as rationals, is not
      modelled.
    - The [defaultdict] of [encode] keeps insertion order, which
      [pack_metadata] observes: it is an association list.  The decoder
      [dict] and the [set] of lengths are only looked up: [gmap], [gset].
    - [encode] is a [while] loop over a work stack: it takes fuel, and
      [Timeout] is the outcome of a run that has not finished.
    - Python exceptions are the [Raise] outcomes; output files are the
      state of a small state-and-exception monad, so that what was written
      before an exception is kept. *)

From Stdlib Require Import ZArith QArith Lqa Lia.
From stdpp Require Import base list sorting gmap sets.

Local Open Scope Z_scope.

(** ** Outcomes and the file-writing monad *)

Inductive exn := OverflowError | TypeError | ValueError | IndexError.

Inductive outcome (A : Type) :=
| Done (a : A)
| Raise (e : exn)
| Timeout.
Arguments Done {A} a.
Arguments Raise {A} e.
Arguments Timeout {A}.

Definition obind {A B} (m : outcome A) (k : A -> outcome B) : outcome B :=
  match m with
  | Done a => k a
  | Raise e => Raise e
  | Timeout => Timeout
  end.

Notation "'let?' x := m 'in' k" := (obind m (fun x => k))
  (at level 10, x name, m at level 100, k at level 200).

(** A computation that writes to an open binary file: the state is the
    bytes written so far, which an exception leaves as they are. *)
Definition writer (A : Type) := list Z -> outcome A * list Z.

Definition wret {A} (a : A) : writer A := fun out => (Done a, out).

Definition wbind {A B} (m : writer A) (k : A -> writer B) : writer B :=
  fun out =>
    match m out with
    | (Done a, out') => k a out'
    | (Raise e, out') => (Raise e, out')
    | (Timeout, out') => (Timeout, out')
    end.

Definition wlift {A} (m : outcome A) : writer A := fun out => (m, out).

(** [file_output.write(byte)] *)
Definition write (byte : Z) : writer unit := fun out => (Done tt, out ++ [byte]).

Notation "'do!' x := m 'in' k" := (wbind m (fun x => k))
  (at level 10, x name, m at level 100, k at level 200).
Notation "m ';;' k" := (wbind m (fun _ => k))
  (at level 100, k at level 200, right associativity).

(** ** Data *)

Definition symbol := Z.
Definition BYTE_LENGTH : nat := 8.

(** [frequency_data]: the list of [(char, probability)] pairs. *)
Abbreviation frequency_data := (list (symbol * Q)).

(** The encoder, a dictionary in insertion order. *)
Abbreviation encoder := (list (symbol * list bool)).

(** ** Python primitives *)

(** [l[i]], with Python's negative indices and [IndexError]. *)
Definition py_index {A} (l : list A) (i : Z) : outcome A :=
  let n := Z.of_nat (length l) in
  let j := if i <? 0 then i + n else i in
  if (0 <=? j) && (j <? n) then
    match l !! Z.to_nat j with
    | Some a => Done a
    | None => Raise IndexError
    end
  else Raise IndexError.

(** [range(start, stop)] *)
Fixpoint py_range_from (start : Z) (len : nat) : list Z :=
  match len with
  | O => []
  | S len' => start :: py_range_from (start + 1) len'
  end.

Definition py_range (start stop : Z) : list Z :=
  py_range_from start (Z.to_nat (stop - start)).

(** [int(s, 2)] on a bit-string; the empty string is a [ValueError]. *)
Definition bits_value (s : list bool) : Z :=
  fold_left (fun acc (b : bool) => 2 * acc + (if b then 1 else 0)) s 0.

Definition int2 (s : list bool) : outcome Z :=
  match s with
  | [] => Raise ValueError
  | _ => Done (bits_value s)
  end.

(** The [w] low bits of [v], most significant first. *)
Fixpoint to_bits (w : nat) (v : Z) : list bool :=
  match w with
  | O => []
  | S w' => Z.testbit v (Z.of_nat w') :: to_bits w' v
  end.

(** [bin(v)[2:]] for [v >= 0]: the binary digits without leading zeros,
    ["0"] for zero. *)
Definition bin (v : Z) : list bool :=
  if v =? 0 then [false] else to_bits (Z.to_nat (Z.log2 v + 1)) v.

(** [s.rjust(width, '0')] *)
Definition rjust (width : nat) (s : list bool) : list bool :=
  replicate (width - length s) false ++ s.

(** [s.ljust(width, '0')] *)
Definition ljust (width : nat) (s : list bool) : list bool :=
  s ++ replicate (width - length s) false.

(** [to_byte]: [data.to_bytes(1, byteorder="big")] raises [OverflowError]
    outside [0, 256). *)
Definition to_byte (data : Z) : outcome Z :=
  if (0 <=? data) && (data <? 256) then Done data else Raise OverflowError.

(** [from_byte(file.read(1))]: [read(1)] is [b''] at the end of the file and
    [int.from_bytes(b'')] is 0. *)
Definition from_byte (data : option Z) : Z :=
  match data with
  | Some b => b
  | None => 0
  end.

(** ** [frequency] *)

(** [counter.update(char)] for a one-character string. *)
Fixpoint counter_update (counter : list (symbol * Z)) (char : symbol)
  : list (symbol * Z) :=
  match counter with
  | [] => [(char, 1)]
  | (k, n) :: rest =>
      if k =? char then (k, n + 1) :: rest
      else (k, n) :: counter_update rest char
  end.

(** [Counter.most_common()]: a stable sort by decreasing count. *)
Fixpoint insert_by_count (x : symbol * Z) (l : list (symbol * Z))
  : list (symbol * Z) :=
  match l with
  | [] => [x]
  | y :: l' =>
      if x.2 <? y.2 then y :: insert_by_count x l' else x :: y :: l'
  end.

Definition most_common (counter : list (symbol * Z)) : list (symbol * Z) :=
  foldr insert_by_count [] counter.

Definition count_chars (input : list symbol) : list (symbol * Z) :=
  fold_left counter_update input [].

Definition frequency (input : list symbol) : Z * frequency_data :=
  let counter := count_chars input in
  let total := Z.of_nat (length input) in
  (total,
   (fun '(char, stat) => (char, (inject_Z stat / inject_Z total)%Q))
     <$> most_common counter).

(** ** [encode] *)

(** [encoder[char].append(bit)] on the [defaultdict(list)]. *)
Fixpoint append_bit (enc : encoder) (char : symbol) (bit : bool) : encoder :=
  match enc with
  | [] => [(char, [bit])]
  | (k, v) :: rest =>
      if k =? char then (k, v ++ [bit]) :: rest
      else (k, v) :: append_bit rest char bit
  end.

(** The first [for] loop: [half += frequency_data[i][1]]. *)
Fixpoint sum_loop (fd : frequency_data) (idxs : list Z) (half : Q) : outcome Q :=
  match idxs with
  | [] => Done half
  | i :: idxs' =>
      let? e := py_index fd i in
      sum_loop fd idxs' (half + e.2)%Q
  end.

(** The second [for] loop, on the state
    [(partition, partition_index, encoder)]. *)
Fixpoint split_loop (fd : frequency_data) (idxs : list Z) (half : Q)
    (partition : Q) (partition_index : Z) (enc : encoder)
  : outcome (Z * encoder) :=
  match idxs with
  | [] => Done (partition_index, enc)
  | i :: idxs' =>
      if Qle_bool partition half then
        let? e := py_index fd i in
        let enc := append_bit enc e.1 false in
        split_loop fd idxs' half (partition + e.2)%Q partition_index enc
      else
        let? e := py_index fd i in
        let enc := append_bit enc e.1 true in
        let partition_index :=
          if partition_index <? 0 then i else partition_index in
        split_loop fd idxs' half (partition + e.2)%Q partition_index enc
  end.

(** One iteration of the [while stack] loop on the popped range. *)
Definition encode_step (fd : frequency_data) (start end_ : Z)
    (stack : list (Z * Z)) (enc : encoder)
  : outcome (list (Z * Z) * encoder) :=
  if start =? end_ then Done (stack, enc)
  else if end_ - start =? 1 then
    let? s := py_index fd start in
    let enc := append_bit enc s.1 false in
    let? e := py_index fd end_ in
    let enc := append_bit enc e.1 true in
    Done (stack, enc)
  else
    let? half := sum_loop fd (py_range start (end_ + 1)) 0%Q in
    let half := (half * (1 # 2))%Q in
    let? r := split_loop fd (py_range start (end_ + 1)) half 0%Q (-1) enc in
    let '(partition_index, enc) := r in
    Done ((start, partition_index - 1) :: (partition_index, end_) :: stack, enc).

(** The [while stack] loop; the head of the list is the top of the stack. *)
Fixpoint encode_loop (fuel : nat) (fd : frequency_data)
    (stack : list (Z * Z)) (enc : encoder) : outcome encoder :=
  match stack, fuel with
  | [], _ => Done enc
  | _ :: _, O => Timeout
  | (start, end_) :: stack', S fuel' =>
      let? r := encode_step fd start end_ stack' enc in
      encode_loop fuel' fd r.1 r.2
  end.

(** [encode]; the closing [''.join] of every value is the identity on
    bit-strings. *)
Definition encode (fuel : nat) (fd : frequency_data) : outcome encoder :=
  encode_loop fuel fd [(0, Z.of_nat (length fd) - 1)] [].

(** ** [pack_metadata] *)

(** The [for key, value in encoder.items()] loop. *)
Fixpoint pack_entries (enc : encoder) : writer unit :=
  match enc with
  | [] => wret tt
  | (key, value) :: rest =>
      do! encoded_key := wlift (to_byte key) in
      do! encoded_value_len := wlift (to_byte (Z.of_nat (length value))) in
      do! encoded_value := wlift (let? v := int2 value in to_byte v) in
      write encoded_key ;;
      write encoded_value_len ;;
      write encoded_value ;;
      pack_entries rest
  end.

Definition pack_metadata (enc : encoder) (input_size : Z) (fd : frequency_data)
  : writer unit :=
  do! encoder_size := wlift (to_byte (Z.of_nat (length fd))) in
  write encoder_size ;;
  do! size_byte := wlift (to_byte input_size) in
  write size_byte ;;
  pack_entries enc.

(** ** [pack_data] *)

(** [encoder[char]] once the values are joined: a missing key makes the
    [defaultdict] answer a fresh list, not a string. *)
Fixpoint encoder_get (enc : encoder) (char : symbol) : option (list bool) :=
  match enc with
  | [] => None
  | (k, v) :: rest => if k =? char then Some v else encoder_get rest char
  end.

(** [while len(bits) > BYTE_LENGTH]: every turn removes eight bits, so
    [length bits] turns of fuel are never used up. *)
Fixpoint flush_loop (fuel : nat) (bits : list bool) : writer (list bool) :=
  if (BYTE_LENGTH <? length bits)%nat then
    match fuel with
    | O => wlift Timeout
    | S fuel' =>
        let bit_str := take BYTE_LENGTH bits in
        let bits := drop BYTE_LENGTH bits in
        do! byte := wlift (let? v := int2 bit_str in to_byte v) in
        write byte ;;
        flush_loop fuel' bits
    end
  else wret bits.

(** The [for char in ...] loop; [bits += encoder[char]] with a list on the
    right is a [TypeError]. *)
Fixpoint pack_chars (input : list symbol) (enc : encoder) (bits : list bool)
  : writer (list bool) :=
  match input with
  | [] => wret bits
  | char :: rest =>
      match encoder_get enc char with
      | None => wlift (Raise TypeError)
      | Some code =>
          let bits := bits ++ code in
          do! bits := flush_loop (length bits) bits in
          pack_chars rest enc bits
      end
  end.

Definition pack_data (input : list symbol) (enc : encoder) : writer unit :=
  do! bits := pack_chars input enc [] in
  match bits with
  | [] => wret tt
  | _ =>
      let bits := ljust BYTE_LENGTH bits in
      do! byte := wlift (let? v := int2 bits in to_byte v) in
      write byte
  end.

(** ** [pack]

    The result is the outcome and the contents of the output file, [None]
    when the file was never opened. *)
Definition pack (fuel : nat) (finput : list symbol)
  : outcome unit * option (list Z) :=
  let '(input_size, fd) := frequency finput in
  match encode fuel fd with
  | Done enc =>
      let '(r, out) :=
        (pack_metadata enc input_size fd ;; pack_data finput enc) [] in
      (r, Some out)
  | Raise e => (Raise e, None)
  | Timeout => (Timeout, None)
  end.

(** ** [unpack_metadata] *)

(** [file_input.read(1)] *)
Definition read1 (f : list Z) : option Z * list Z :=
  match f with
  | [] => (None, [])
  | b :: f' => (Some b, f')
  end.

(** The [while decoder_size > 0] loop: [decoder_size] starts at [3 * n] and
    loses 3 at each turn, [n] turns in all. *)
Fixpoint read_entries (n : nat) (f : list Z)
    (decoder : gmap (list bool) symbol) (val_lens : gset Z)
  : gmap (list bool) symbol * gset Z * list Z :=
  match n with
  | O => (decoder, val_lens, f)
  | S n' =>
      let '(b, f) := read1 f in
      let key := from_byte b in
      let '(b, f) := read1 f in
      let val_len := from_byte b in
      let val_lens := {[val_len]} ∪ val_lens in
      let '(b, f) := read1 f in
      let val := rjust (Z.to_nat val_len) (bin (from_byte b)) in
      read_entries n' f (<[val := key]> decoder) val_lens
  end.

Definition unpack_metadata (f : list Z)
  : Z * gmap (list bool) symbol * gset Z * list Z :=
  let '(b, f) := read1 f in
  let decoder_size := from_byte b in
  let '(b, f) := read1 f in
  let input_size := from_byte b in
  let '(decoder, val_lens, f) := read_entries (Z.to_nat decoder_size) f ∅ ∅ in
  (input_size, decoder, val_lens, f).

(** ** [unpack_data] *)

(** The [for bit in byte] loop on the state [(bits, input_size)] and the
    text written so far; [break] leaves the remaining bits of the byte. *)
Fixpoint unpack_bits (byte : list bool) (bits : list bool) (input_size : Z)
    (decoder : gmap (list bool) symbol) (val_lens : gset Z) (out : list symbol)
  : list bool * Z * list symbol :=
  match byte with
  | [] => (bits, input_size, out)
  | bit :: byte' =>
      let bits := bits ++ [bit] in
      if decide (Z.of_nat (length bits) ∈ val_lens) then
        match decoder !! bits with
        | Some decoded_elt =>
            let out := out ++ [decoded_elt] in
            let input_size := input_size - 1 in
            if input_size =? 0 then ([], input_size, out)
            else unpack_bits byte' [] input_size decoder val_lens out
        | None => unpack_bits byte' bits input_size decoder val_lens out
        end
      else unpack_bits byte' bits input_size decoder val_lens out
  end.

(** The [while byte] loop. *)
Fixpoint unpack_bytes (f : list Z) (bits : list bool) (input_size : Z)
    (decoder : gmap (list bool) symbol) (val_lens : gset Z) (out : list symbol)
  : list symbol :=
  match f with
  | [] => out
  | byte :: f' =>
      let byte := rjust BYTE_LENGTH (bin byte) in
      let '(bits, input_size, out) :=
        unpack_bits byte bits input_size decoder val_lens out in
      unpack_bytes f' bits input_size decoder val_lens out
  end.

Definition unpack_data (f : list Z) (input_size : Z)
    (decoder : gmap (list bool) symbol) (val_lens : gset Z) : list symbol :=
  unpack_bytes f [] input_size decoder val_lens [].

(** ** [unpack] *)

Definition unpack (finput : list Z) : list symbol :=
  let '(input_size, decoder, val_lens, f) := unpack_metadata finput in
  unpack_data f input_size decoder val_lens.

(** * Vocabulary of the specification *)

(** The codeword a symbol has so far (the empty list for a missing key). *)
Definition code (enc : encoder) (k : symbol) : list bool :=
  default [] (encoder_get enc k).

(** Appending the same bit to the codewords of several symbols in turn. *)
Definition assign (b : bool) (enc : encoder) (ks : list symbol) : encoder :=
  foldl (fun enc k => append_bit enc k b) enc ks.

(** The sum of a list of probabilities. *)
Definition qsum (l : list Q) : Q := foldr Qplus 0%Q l.

(** Neither bit-string is a prefix of the other. *)
Definition incomparable (x y : list bool) : Prop :=
  ~ x `prefix_of` y /\ ~ y `prefix_of` x.

(** The stack as the list of the symbol groups of its ranges.  The groups
    are disjoint; the symbols of one group share the bits given so far;
    two symbols that are not in a common group already have codewords of
    which neither is a prefix of the other. *)
Record seg_inv (syms : list symbol) (segs : list (list symbol))
    (enc : encoder) : Prop := {
  seg_nodup : NoDup (mjoin segs);
  seg_same : forall g k k',
      g ∈ segs -> k ∈ g -> k' ∈ g -> code enc k = code enc k';
  seg_apart : forall k k',
      k ∈ syms -> k' ∈ syms -> k <> k' ->
      (exists g, g ∈ segs /\ k ∈ g /\ k' ∈ g)
      \/ incomparable (code enc k) (code enc k');
}.

(** [frequency_data] is sorted by decreasing probability. *)
Definition desc (a b : symbol * Q) : Prop := (b.2 <= a.2)%Q.

(** What is left to do for a stack: a range of [m] symbols takes at most
    [2 * m - 1] turns of the loop. *)
Definition stack_cost (stack : list (Z * Z)) : nat :=
  sum_list ((fun r => Z.to_nat (2 * (r.2 - r.1) + 1)) <$> stack).

(** The symbols of a range of indices. *)
Definition seg (fd : frequency_data) (r : Z * Z) : list symbol :=
  (take (Z.to_nat (r.2 - r.1 + 1)) (drop (Z.to_nat r.1) fd)).*1.

(** A range that lies inside the list. *)
Definition valid (fd : frequency_data) (r : Z * Z) : Prop :=
  0 <= r.1 /\ r.1 <= r.2 < Z.of_nat (length fd).

(** The invariant of the [while stack] loop. *)
Definition stack_inv (fd : frequency_data) (stack : list (Z * Z))
    (enc : encoder) : Prop :=
  Forall (valid fd) stack /\ seg_inv fd.*1 (seg fd <$> stack) enc.

(** The order of [most_common]: by decreasing count. *)
Definition by_count (a b : symbol * Z) : Prop := b.2 <= a.2.

(** The number of distinct symbols of the input. *)
Definition distinct (input : list symbol) : nat := length (remove_dups input).

(** No codeword is a prefix of the codeword of another symbol; in
    particular two symbols never share a codeword. *)
Definition prefix_code (enc : encoder) : Prop :=
  forall k v k' v',
    (k, v) ∈ enc -> (k', v') ∈ enc -> k <> k' -> ~ v `prefix_of` v'.

(** The three bytes of one table entry. *)
Definition entry_bytes (e : symbol * list bool) : list Z :=
  [e.1; Z.of_nat (length e.2); bits_value e.2].

(** The header: the two counts, then the entries of the table. *)
Definition header_bytes (enc : encoder) (n t : Z) : list Z :=
  n :: t :: (enc ≫= entry_bytes).

(** An entry that [pack_entries] can write: each of its three numbers
    fits in a byte and the codeword is not empty. *)
Definition storable (e : symbol * list bool) : Prop :=
  (0 <= e.1 < 256) /\ e.2 <> [] /\
  Z.of_nat (length e.2) < 256 /\ bits_value e.2 < 256.

#[global] Instance storable_dec (e : symbol * list bool) : Decision (storable e).
Proof. unfold storable. apply _. Defined.


(** The decoder and the set of lengths that [unpack_metadata] builds. *)
Definition decoder_from (d : gmap (list bool) symbol) (enc : encoder)
  : gmap (list bool) symbol :=
  foldl (fun d e => <[e.2 := e.1]> d) d enc.

Definition lens_from (s : gset Z) (enc : encoder) : gset Z :=
  foldl (fun s e => {[Z.of_nat (length e.2)]} ∪ s) s enc.

(** A value that a byte of a file can have. *)
Definition is_byte (b : Z) : Prop := 0 <= b < 256.

(** The bits that [unpack_data] sees: eight for every byte. *)
Definition expand (bs : list Z) : list bool :=
  bs ≫= (fun b => rjust BYTE_LENGTH (bin b)).

(** The bits that [pack_data] packs: the codewords of the input in turn. *)
Definition stream (enc : encoder) (input : list symbol) : list bool :=
  input ≫= code enc.





(** The distinct symbols of the input, in the order in which they are first
    seen. *)
Definition first_seen (input : list symbol) : list symbol :=
  foldl (fun acc c => if decide (c ∈ acc) then acc else acc ++ [c]) [] input.






(** * Example inputs *)

(** The input ["abcd"] and the table [encode] builds for it. *)
Definition abcd : list symbol := [97; 98; 99; 100].

Definition abcd_table : encoder :=
  [(97, [false; false; false]); (98, [false; false; true]);
   (99, [false; true]); (100, [true])].

Definition abcd_file : list Z :=
  [4; 4; 97; 3; 0; 98; 3; 1; 99; 2; 1; 100; 1; 1; 5; 128].

(** The input ["a"], and an input with a symbol above 255. *)
Definition one_symbol : list symbol := [97].






(** A table with a codeword of nine bits whose value fits in a byte, and
    a list of two frequencies. *)
Definition nine_bit_table : encoder :=
  [(97, replicate 8 false ++ [true]); (98, [true])].

Definition fd_halves : frequency_data := [(97, (1 # 2)%Q); (98, (1 # 2)%Q)].


(** * Bit-strings: [int(s, 2)], [bin] and [rjust] *)

Section bit_strings.
Implicit Types (s : list bool) (v : Z) (w : nat).

Lemma bits_value_fold s (a : Z) :
  fold_left (fun acc (b : bool) => 2 * acc + (if b then 1 else 0)) s a
  = a * 2 ^ Z.of_nat (length s) + bits_value s.
Proof.
  unfold bits_value. revert a. induction s as [|b s IH]; intros a.
  - simpl. lia.
  - cbn [fold_left length]. rewrite IH, (IH (2 * 0 + _)).
    rewrite Nat2Z.inj_succ, Z.pow_succ_r by lia. lia.
Qed.

Lemma bits_value_cons (b : bool) s :
  bits_value (b :: s)
  = (if b then 1 else 0) * 2 ^ Z.of_nat (length s) + bits_value s.
Proof. unfold bits_value at 1. cbn [fold_left]. rewrite bits_value_fold. lia. Qed.

Lemma bits_value_range s : 0 <= bits_value s < 2 ^ Z.of_nat (length s).
Proof.
  induction s as [|b s IH].
  - simpl. unfold bits_value. simpl. lia.
  - rewrite bits_value_cons. cbn [length].
    rewrite Nat2Z.inj_succ, Z.pow_succ_r by lia. destruct b; lia.
Qed.

Lemma to_bits_length w v : length (to_bits w v) = w.
Proof. induction w; simpl; auto. Qed.

Lemma to_bits_ext w v v' :
  (forall i, 0 <= i < Z.of_nat w -> Z.testbit v i = Z.testbit v' i) ->
  to_bits w v = to_bits w v'.
Proof.
  induction w as [|w IH]; intros H; simpl; [done|].
  f_equal; [apply H; lia | apply IH; intros; apply H; lia].
Qed.

Lemma testbit_high (b : bool) v (n : Z) :
  0 <= n -> 0 <= v < 2 ^ n ->
  Z.testbit ((if b then 1 else 0) * 2 ^ n + v) n = b.
Proof.
  intros Hn Hv.
  rewrite Z.testbit_eqb by lia.
  rewrite Z.div_add_l by lia.
  rewrite Z.div_small, Z.add_0_r by lia. by destruct b.
Qed.

Lemma testbit_low (b : bool) v (n i : Z) :
  0 <= i < n ->
  Z.testbit ((if b then 1 else 0) * 2 ^ n + v) i = Z.testbit v i.
Proof.
  intros Hi.
  rewrite <- (Z.mod_pow2_bits_low _ n i) by lia.
  rewrite Z.add_comm, Z.mod_add by lia.
  apply Z.mod_pow2_bits_low; lia.
Qed.

(** Reading the digits of [int(s, 2)] back at the width of [s]. *)
Lemma to_bits_value s : to_bits (length s) (bits_value s) = s.
Proof.
  induction s as [|b s IH]; [done|].
  cbn [length to_bits]. rewrite bits_value_cons.
  pose proof (bits_value_range s). f_equal.
  - apply testbit_high; lia.
  - etrans; [|exact IH]. apply to_bits_ext. intros i Hi.
    apply testbit_low; lia.
Qed.

Lemma to_bits_zero w : to_bits w 0 = replicate w false.
Proof. induction w; simpl; [done|]. by rewrite Z.testbit_0_l, IHw. Qed.

Lemma to_bits_pad (k w : nat) v :
  0 <= v < 2 ^ Z.of_nat w ->
  to_bits (k + w) v = replicate k false ++ to_bits w v.
Proof.
  intros Hv. induction k as [|k IH]; [done|].
  cbn [Nat.add to_bits replicate app]. rewrite IH. f_equal.
  destruct (decide (v = 0)) as [->|Hne]; [apply Z.testbit_0_l|].
  apply Z.bits_above_log2; [lia|].
  apply Z.log2_lt_pow2; [lia|].
  apply Z.lt_le_trans with (2 ^ Z.of_nat w); [lia|].
  apply Z.pow_le_mono_r; lia.
Qed.

(** [bin(v)[2:].rjust(w, '0')] is the [w]-digit form of [v] when [v] has
    at most [w] digits. *)
Lemma rjust_bin w v :
  (0 < w)%nat -> 0 <= v < 2 ^ Z.of_nat w ->
  rjust w (bin v) = to_bits w v.
Proof.
  intros Hw Hv. unfold rjust, bin.
  destruct (v =? 0) eqn:E.
  - apply Z.eqb_eq in E as ->. rewrite to_bits_zero. simpl.
    replace w with (S (w - 1)) at 2 by lia.
    rewrite replicate_S_end. done.
  - apply Z.eqb_neq in E.
    assert (Z.log2 v < Z.of_nat w) by (apply Z.log2_lt_pow2; lia).
    pose proof (Z.log2_nonneg v).
    rewrite to_bits_length.
    set (l := Z.to_nat (Z.log2 v + 1)).
    replace w with ((w - l) + l)%nat at 2 by lia.
    apply eq_sym, to_bits_pad. split; [lia|].
    replace (Z.of_nat l) with (Z.succ (Z.log2 v)) by lia.
    apply Z.log2_spec. lia.
Qed.

(** The header and the payload both rely on this round trip. *)
Lemma rjust_bin_value s :
  s <> [] -> rjust (length s) (bin (bits_value s)) = s.
Proof.
  intros Hs. rewrite rjust_bin.
  - apply to_bits_value.
  - destruct s; [done|simpl; lia].
  - apply bits_value_range.
Qed.

Lemma to_byte_Done (data : Z) :
  0 <= data < 256 -> to_byte data = Done data.
Proof.
  intros H. unfold to_byte.
  destruct (0 <=? data) eqn:E1; destruct (data <? 256) eqn:E2; simpl; try done; lia.
Qed.

Lemma to_byte_inv (data b : Z) :
  to_byte data = Done b -> b = data /\ 0 <= data < 256.
Proof.
  unfold to_byte.
  destruct (0 <=? data) eqn:E1; destruct (data <? 256) eqn:E2; simpl;
    intros [= <-] || intros [=]; lia.
Qed.

End bit_strings.

(** * The encoder dictionary *)

Section encoder_dict.
Implicit Types (enc : encoder) (k : symbol) (b : bool) (ks : list symbol).

Lemma encoder_get_append_eq enc k b :
  encoder_get (append_bit enc k b) k = Some (code enc k ++ [b]).
Proof.
  unfold code. induction enc as [|[k' v] enc IH]; simpl.
  - by rewrite Z.eqb_refl.
  - destruct (Z.eqb_spec k' k) as [->|Hne]; simpl.
    + by rewrite Z.eqb_refl.
    + destruct (Z.eqb_spec k' k); [done|]. apply IH.
Qed.

Lemma encoder_get_append_ne enc k k' b :
  k <> k' -> encoder_get (append_bit enc k b) k' = encoder_get enc k'.
Proof.
  intros Hne. induction enc as [|[k0 v] enc IH]; simpl.
  - destruct (Z.eqb_spec k k'); done.
  - destruct (Z.eqb_spec k0 k) as [->|]; simpl.
    + destruct (Z.eqb_spec k k'); done.
    + destruct (Z.eqb_spec k0 k'); [done|apply IH].
Qed.

Lemma code_append_eq enc k b : code (append_bit enc k b) k = code enc k ++ [b].
Proof. unfold code at 1. by rewrite encoder_get_append_eq. Qed.

Lemma code_append_ne enc k k' b :
  k <> k' -> code (append_bit enc k b) k' = code enc k'.
Proof. intros. unfold code. by rewrite encoder_get_append_ne. Qed.

Lemma keys_append_in enc k b : k ∈ enc.*1 -> (append_bit enc k b).*1 = enc.*1.
Proof.
  induction enc as [|[k' v] enc IH]; simpl; intros Hin.
  - by apply elem_of_nil in Hin.
  - destruct (Z.eqb_spec k' k) as [->|Hne]; simpl; [done|].
    f_equal. apply IH. apply elem_of_cons in Hin as [?|?]; [congruence|done].
Qed.

Lemma keys_append_notin enc k b :
  k ∉ enc.*1 -> (append_bit enc k b).*1 = enc.*1 ++ [k].
Proof.
  induction enc as [|[k' v] enc IH]; simpl; intros Hin; [done|].
  apply not_elem_of_cons in Hin as [Hne Hin].
  destruct (Z.eqb_spec k' k); [congruence|]. simpl. f_equal. by apply IH.
Qed.

Lemma encoder_get_None enc k : encoder_get enc k = None <-> k ∉ enc.*1.
Proof.
  induction enc as [|[k' v] enc IH]; simpl.
  - split; [intros _; apply not_elem_of_nil|done].
  - rewrite not_elem_of_cons. destruct (Z.eqb_spec k' k); [|rewrite IH]; intuition congruence.
Qed.

Lemma encoder_get_elem enc k v : encoder_get enc k = Some v -> (k, v) ∈ enc.
Proof.
  induction enc as [|[k' v'] enc IH]; simpl; [done|].
  destruct (Z.eqb_spec k' k) as [->|].
  - intros [= ->]. apply elem_of_cons; by left.
  - intros. apply elem_of_cons; right; auto.
Qed.

Lemma elem_encoder_get enc k v :
  NoDup enc.*1 -> (k, v) ∈ enc -> encoder_get enc k = Some v.
Proof.
  induction enc as [|[k' v'] enc IH]; simpl; intros Hnd Hin.
  - by apply elem_of_nil in Hin.
  - apply NoDup_cons in Hnd as [Hk' Hnd].
    apply elem_of_cons in Hin as [[= -> ->]|Hin].
    + by rewrite Z.eqb_refl.
    + destruct (Z.eqb_spec k' k) as [->|]; [|by apply IH].
      exfalso. apply Hk'. apply list_elem_of_fmap. by exists (k, v).
Qed.

Lemma code_assign_notin b enc ks k :
  k ∉ ks -> code (assign b enc ks) k = code enc k.
Proof.
  unfold assign. revert enc. induction ks as [|k' ks IH]; intros enc Hk; [done|].
  apply not_elem_of_cons in Hk as [Hne Hk]. simpl.
  rewrite IH by done. by apply code_append_ne.
Qed.

Lemma code_assign_in b enc ks k :
  NoDup ks -> k ∈ ks -> code (assign b enc ks) k = code enc k ++ [b].
Proof.
  unfold assign. revert enc. induction ks as [|k' ks IH]; intros enc Hnd Hk.
  - by apply elem_of_nil in Hk.
  - apply NoDup_cons in Hnd as [Hk' Hnd]. simpl.
    apply elem_of_cons in Hk as [->|Hk].
    + fold (assign b (append_bit enc k' b) ks).
      rewrite code_assign_notin by done. apply code_append_eq.
    + rewrite IH by done. rewrite code_append_ne; [done|].
      intros ->. done.
Qed.

Lemma keys_assign_old b enc ks :
  ks ⊆ enc.*1 -> (assign b enc ks).*1 = enc.*1.
Proof.
  unfold assign. revert enc. induction ks as [|k ks IH]; intros enc Hsub; [done|].
  simpl. assert (k ∈ enc.*1) by (apply Hsub, elem_of_cons; by left).
  rewrite IH; rewrite keys_append_in by done; [done|].
  intros x Hx. apply Hsub, elem_of_cons. by right.
Qed.

Lemma keys_assign_new b enc ks :
  NoDup ks -> (forall k, k ∈ ks -> k ∉ enc.*1) ->
  (assign b enc ks).*1 = enc.*1 ++ ks.
Proof.
  unfold assign. revert enc. induction ks as [|k ks IH]; intros enc Hnd Hnew.
  - simpl. by rewrite app_nil_r.
  - apply NoDup_cons in Hnd as [Hk Hnd]. simpl.
    assert (k ∉ enc.*1) by (apply Hnew, elem_of_cons; by left).
    rewrite IH; rewrite ?keys_append_notin by done.
    + by rewrite <- app_assoc.
    + done.
    + intros k' Hk'. rewrite not_elem_of_app, not_elem_of_cons. split_and!.
      * apply Hnew, elem_of_cons. by right.
      * intros ->. done.
      * apply not_elem_of_nil.
Qed.

Lemma keys_split enc g0 g1 (syms : list symbol) :
  NoDup (g0 ++ g1) ->
  g0 ++ g1 ⊆ syms ->
  enc.*1 = syms \/ (enc = [] /\ g0 ++ g1 = syms) ->
  (assign true (assign false enc g0) g1).*1 = syms.
Proof.
  intros Hnd Hsub [Hkeys|[-> Hall]].
  - rewrite keys_assign_old; rewrite keys_assign_old; rewrite ?Hkeys; try done.
    all: intros k Hk; apply Hsub, elem_of_app; auto.
  - apply NoDup_app in Hnd as (Hnd0 & Hdisj & Hnd1).
    rewrite keys_assign_new; rewrite ?keys_assign_new; try done.
    + intros k Hk. simpl. apply not_elem_of_nil.
    + simpl. intros k Hk Hk0. by eapply Hdisj.
    + intros k Hk. simpl. apply not_elem_of_nil.
Qed.

End encoder_dict.

(** * The two [for] loops of [encode] on a valid range *)

Lemma qsum_nil : qsum [] = 0%Q.
Proof. done. Qed.

Lemma qsum_cons (p : Q) (l : list Q) : qsum (p :: l) = (p + qsum l)%Q.
Proof. done. Qed.

Lemma qsum_nonneg (l : list Q) : Forall (fun p => 0 < p)%Q l -> (0 <= qsum l)%Q.
Proof.
  unfold qsum. induction 1 as [|p l Hp _ IH]; simpl in *; lra.
Qed.

Lemma foldl_qsum (es : list (symbol * Q)) (a : Q) :
  (foldl (fun a e => a + e.2) a es == a + qsum es.*2)%Q.
Proof.
  revert a. induction es as [|e es IH]; intros a; [unfold qsum; simpl; lra|].
  cbn [foldl]. rewrite IH. unfold qsum. rewrite fmap_cons. cbn [foldr]. ring.
Qed.

Section encode_loops.
Variable fd : frequency_data.
Implicit Types (es pre post : list (symbol * Q)).

Lemma py_index_middle pre x post :
  fd = pre ++ x :: post -> py_index fd (Z.of_nat (length pre)) = Done x.
Proof.
  intros ->. unfold py_index.
  destruct (Z.ltb_spec (Z.of_nat (length pre)) 0); [lia|].
  rewrite length_app. cbn [length].
  destruct (Z.leb_spec 0 (Z.of_nat (length pre))); [|lia].
  destruct (Z.ltb_spec (Z.of_nat (length pre))
              (Z.of_nat (length pre + S (length post)))); [|lia].
  cbn [andb]. rewrite Nat2Z.id, list_lookup_middle by done. done.
Qed.

Lemma segment_step pre x es post :
  pre ++ (x :: es) ++ post = (pre ++ [x]) ++ es ++ post.
Proof. by rewrite <- app_assoc. Qed.

Lemma length_snoc_Z pre (x : symbol * Q) :
  Z.of_nat (length (pre ++ [x])) = Z.of_nat (length pre) + 1.
Proof. rewrite length_app. simpl. lia. Qed.

Lemma sum_loop_segment es pre post a :
  fd = pre ++ es ++ post ->
  sum_loop fd (py_range_from (Z.of_nat (length pre)) (length es)) a
  = Done (foldl (fun a e => a + e.2)%Q a es).
Proof.
  revert pre a. induction es as [|x es IH]; intros pre a Hfd; [done|].
  cbn [length py_range_from sum_loop foldl].
  rewrite (py_index_middle pre x (es ++ post)) by done. cbn [obind].
  rewrite <- (length_snoc_Z pre x). apply IH. by rewrite <- segment_step.
Qed.

(** Once the running sum is over the half, every remaining symbol gets a
    ['1'] and the recorded index stays. *)
Lemma split_loop_ones es pre post half partition pidx enc :
  fd = pre ++ es ++ post ->
  Forall (fun e => 0 < e.2)%Q es ->
  0 <= pidx ->
  (half < partition)%Q ->
  split_loop fd (py_range_from (Z.of_nat (length pre)) (length es))
             half partition pidx enc
  = Done (pidx, assign true enc es.*1).
Proof.
  revert pre partition enc.
  induction es as [|x es IH]; intros pre partition enc Hfd Hpos Hpidx Hlt; [done|].
  apply Forall_cons in Hpos as [Hx Hpos].
  cbn [length py_range_from split_loop].
  assert (Qle_bool partition half = false) as ->.
  { apply not_true_is_false. rewrite Qle_bool_iff. lra. }
  rewrite (py_index_middle pre x (es ++ post)) by done. cbn [obind].
  destruct (Z.ltb_spec pidx 0); [lia|].
  rewrite <- (length_snoc_Z pre x). rewrite IH; [done|by rewrite <- segment_step|done..|lra].
Qed.

(** Before that, symbols get a ['0'] until the running sum is over the
    half, which happens at the last symbol at the latest when the sum of
    all the others is over the half. *)
Lemma split_loop_zeros es pre post half partition enc :
  fd = pre ++ es ++ post ->
  Forall (fun e => 0 < e.2)%Q es ->
  es <> [] ->
  (half < partition + qsum (removelast es).*2)%Q ->
  exists es0 es1,
    es = es0 ++ es1 /\ es1 <> [] /\
    ((partition <= half)%Q -> es0 <> []) /\
    split_loop fd (py_range_from (Z.of_nat (length pre)) (length es))
               half partition (-1) enc
    = Done (Z.of_nat (length pre + length es0),
            assign true (assign false enc es0.*1) es1.*1).
Proof.
  revert pre partition enc.
  induction es as [|x es IH]; intros pre partition enc Hfd Hpos Hne Hcross; [done|].
  apply Forall_cons in Hpos as [Hx Hpos].
  cbn [length py_range_from split_loop].
  rewrite (py_index_middle pre x (es ++ post)) by done.
  destruct (Qle_bool partition half) eqn:Hle; cbn [obind].
  - apply Qle_bool_iff in Hle.
    destruct es as [|y es].
    { change (removelast [x]) with (@nil (symbol * Q)) in Hcross.
      rewrite fmap_nil, qsum_nil in Hcross. lra. }
    destruct (IH (pre ++ [x]) (partition + x.2)%Q (append_bit enc x.1 false))
      as (es0 & es1 & Hes & Hes1 & _ & Hrun);
      [by rewrite <- segment_step|done|done| |].
    { change (removelast (x :: y :: es)) with (x :: removelast (y :: es)) in Hcross.
      rewrite fmap_cons, qsum_cons in Hcross. lra. }
    exists (x :: es0), es1. split_and!.
    + by rewrite Hes.
    + done.
    + done.
    + rewrite <- (length_snoc_Z pre x). rewrite Hrun. do 2 f_equal.
      rewrite length_app. simpl. lia.
  - assert (half < partition)%Q.
    { apply Qnot_le_lt. rewrite <- Qle_bool_iff. by rewrite Hle. }
    exists [], (x :: es). split_and!; [done|done|lra|].
    change (-1 <? 0) with true. cbv iota.
    rewrite <- (length_snoc_Z pre x).
    rewrite (split_loop_ones es (pre ++ [x]) post);
      [|by rewrite <- segment_step|done|lia|lra].
    simpl. do 2 f_equal. lia.
Qed.
End encode_loops.

(** * Prefix codes and the invariant of the work stack *)

Lemma incomparable_sym x y : incomparable x y -> incomparable y x.
Proof. unfold incomparable. tauto. Qed.

Lemma incomparable_app_l x y z : incomparable x y -> incomparable (x ++ z) y.
Proof.
  intros [Hxy Hyx]. split.
  - intros H. apply Hxy. by eapply prefix_app_l.
  - intros H.
    destruct (prefix_weak_total y x (x ++ z)) as [?|?]; [done|by apply prefix_app_r|done..].
Qed.

Lemma incomparable_snoc (c : list bool) : incomparable (c ++ [false]) (c ++ [true]).
Proof.
  split; intros H; apply prefix_app_inv in H;
    destruct H as [k Hk]; simplify_eq.
Qed.

Section seg_inv.
Variable syms : list symbol.
Implicit Types (g : list symbol) (segs : list (list symbol)) (enc : encoder).

Lemma seg_inv_init : NoDup syms -> seg_inv syms [syms] [].
Proof.
  intros Hnd. split.
  - simpl. by rewrite app_nil_r.
  - done.
  - intros k k' Hk Hk' _. left. exists syms. split_and!; try done.
    apply elem_of_cons; by left.
Qed.

(** Popping a range of one symbol. *)
Lemma seg_inv_pop k segs enc :
  seg_inv syms ([k] :: segs) enc -> seg_inv syms segs enc.
Proof.
  intros [Hnd Hsame Hapart]. split.
  - simpl in Hnd. by apply NoDup_cons in Hnd as [_ ?].
  - intros g k1 k2 Hg. apply Hsame. apply elem_of_cons; by right.
  - intros k1 k2 H1 H2 Hne.
    destruct (Hapart k1 k2 H1 H2 Hne) as [(g & Hg & Hk1 & Hk2)|?]; [|by right].
    apply elem_of_cons in Hg as [->|Hg]; [|left; by exists g].
    apply list_elem_of_singleton in Hk1, Hk2. congruence.
Qed.

Lemma code_split enc g0 g1 k :
  NoDup (g0 ++ g1) ->
  code (assign true (assign false enc g0) g1) k
  = if decide (k ∈ g0) then code enc k ++ [false]
    else if decide (k ∈ g1) then code enc k ++ [true]
    else code enc k.
Proof.
  intros Hnd. apply NoDup_app in Hnd as (Hnd0 & Hdisj & Hnd1).
  destruct (decide (k ∈ g0)) as [H0|H0].
  - rewrite code_assign_notin by (by apply Hdisj).
    by apply code_assign_in.
  - destruct (decide (k ∈ g1)) as [H1|H1].
    + rewrite code_assign_in by done. by rewrite code_assign_notin.
    + by rewrite !code_assign_notin.
Qed.

(** Splitting the range on top of the stack in two, with a ['0'] for the
    symbols of the first part and a ['1'] for those of the second. *)
Lemma seg_inv_split g0 g1 segs enc :
  seg_inv syms ((g0 ++ g1) :: segs) enc ->
  seg_inv syms (g0 :: g1 :: segs) (assign true (assign false enc g0) g1).
Proof.
  intros [Hnd Hsame Hapart].
  assert (NoDup (g0 ++ g1)) as Hnd01.
  { simpl in Hnd. by apply NoDup_app in Hnd as (? & _ & _). }
  assert (forall k g, k ∈ g0 ++ g1 -> g ∈ segs -> k ∉ g) as Hdisj.
  { intros k g Hk Hg Hkg. simpl in Hnd.
    apply NoDup_app in Hnd as (_ & Hd & _).
    apply (Hd k Hk). apply list_elem_of_join. by exists g. }
  assert (forall k k', k ∈ g0 ++ g1 -> k' ∈ g0 ++ g1 ->
                       code enc k = code enc k') as Hc.
  { intros k k'. apply Hsame. apply elem_of_cons; by left. }
  pose proof (NoDup_app g0 g1) as Hsplit. apply proj1 in Hsplit.
  destruct (Hsplit Hnd01) as (Hnd0 & Hd01 & Hnd1).
  split.
  - simpl in *. by rewrite app_assoc.
  - intros g k k' Hg Hk Hk'. rewrite !code_split by done.
    apply elem_of_cons in Hg as [->|Hg];
      [|apply elem_of_cons in Hg as [->|Hg]].
    + rewrite !decide_True by done. f_equal. apply Hc; set_solver.
    + rewrite (decide_False (P := k ∈ g0)), (decide_False (P := k' ∈ g0))
        by (intros ?; by eapply Hd01).
      rewrite !decide_True by done. f_equal. apply Hc; set_solver.
    + assert (k ∉ g0 ++ g1) by (intros ?; by eapply Hdisj).
      assert (k' ∉ g0 ++ g1) by (intros ?; by eapply Hdisj).
      rewrite !decide_False by set_solver.
      apply (Hsame g); [apply elem_of_cons; by right|done..].
  - intros k k' Hk Hk' Hne. rewrite !code_split by done.
    destruct (Hapart k k' Hk Hk' Hne) as [(g & Hg & Hkg & Hk'g)|Hinc].
    + apply elem_of_cons in Hg as [->|Hg].
      * apply elem_of_app in Hkg as [?|?], Hk'g as [?|?].
        -- left. exists g0. set_solver.
        -- right. rewrite !decide_True by done.
           rewrite (decide_False (P := k' ∈ g0)) by (intros ?; by eapply Hd01).
           rewrite decide_True by done.
           rewrite (Hc k k') by set_solver. apply incomparable_snoc.
        -- right. rewrite (decide_False (P := k ∈ g0)) by (intros ?; by eapply Hd01).
           rewrite !decide_True by done.
           rewrite (Hc k k') by set_solver.
           apply incomparable_sym, incomparable_snoc.
        -- left. exists g1. set_solver.
      * left. exists g. set_solver.
    + right.
      repeat case_decide;
        repeat first [apply incomparable_app_l
                     |apply incomparable_sym, incomparable_app_l, incomparable_sym];
        done.
Qed.

(** With the stack empty the code is prefix-free. *)
Lemma seg_inv_final enc k k' :
  seg_inv syms [] enc -> k ∈ syms -> k' ∈ syms -> k <> k' ->
  incomparable (code enc k) (code enc k').
Proof.
  intros [_ _ Hapart] Hk Hk' Hne.
  destruct (Hapart k k' Hk Hk' Hne) as [(g & Hg & _)|?]; [|done].
  by apply elem_of_nil in Hg.
Qed.
End seg_inv.

(** * [encode] on a sorted list of positive frequencies *)

Lemma qsum_app (l1 l2 : list Q) : (qsum (l1 ++ l2) == qsum l1 + qsum l2)%Q.
Proof.
  induction l1 as [|p l1 IH]; [rewrite app_nil_l, qsum_nil; ring|].
  rewrite <- app_comm_cons, !qsum_cons, IH. ring.
Qed.

(** In a sorted range of three or more positive frequencies, the sum of
    all but the last is over half the sum of all. *)
Lemma crossing (es : list (symbol * Q)) :
  StronglySorted desc es ->
  Forall (fun e => 0 < e.2)%Q es ->
  (3 <= length es)%nat ->
  (foldl (fun a e => a + e.2) 0 es * (1 # 2)
   < 0 + qsum (removelast es).*2)%Q.
Proof.
  intros Hsorted Hpos Hlen.
  destruct es as [|z front _] using rev_ind; [simpl in Hlen; lia|].
  rewrite removelast_last, foldl_qsum, fmap_app, qsum_app.
  rewrite length_app in Hlen. simpl in Hlen.
  destruct front as [|a [|b front]]; [simpl in Hlen; lia..|].
  apply StronglySorted_app in Hsorted as (Hle & _ & _).
  assert (desc a z) as Ha by (apply Hle; set_solver).
  assert (desc b z) as Hb by (apply Hle; set_solver).
  unfold desc in Ha, Hb.
  apply Forall_app in Hpos as [Hfront Hz].
  apply Forall_cons in Hfront as [Ha0 Hfront].
  apply Forall_cons in Hfront as [Hb0 Hfront].
  apply Forall_cons in Hz as [Hz _].
  assert (0 <= qsum front.*2)%Q.
  { apply qsum_nonneg. rewrite Forall_fmap. exact Hfront. }
  rewrite !fmap_cons, fmap_nil, !qsum_cons, qsum_nil.
  simpl in Ha0, Hb0, Hz. lra.
Qed.

Section encode_correct.
Variable fd : frequency_data.
Hypothesis fd_pos : Forall (fun e => 0 < e.2)%Q fd.
Hypothesis fd_sorted : StronglySorted desc fd.

Lemma valid_split s e :
  valid fd (s, e) ->
  exists pre es post,
    fd = pre ++ es ++ post /\
    s = Z.of_nat (length pre) /\
    e - s + 1 = Z.of_nat (length es).
Proof.
  unfold valid. simpl. intros H.
  exists (take (Z.to_nat s) fd),
    (take (Z.to_nat (e - s + 1)) (drop (Z.to_nat s) fd)),
    (drop (Z.to_nat (e - s + 1)) (drop (Z.to_nat s) fd)).
  split_and!.
  - by rewrite !take_drop.
  - rewrite length_take. lia.
  - rewrite length_take, length_drop. lia.
Qed.

Lemma seg_segment pre es post s e :
  fd = pre ++ es ++ post ->
  s = Z.of_nat (length pre) ->
  e - s + 1 = Z.of_nat (length es) ->
  seg fd (s, e) = es.*1.
Proof.
  intros Hfd -> He. unfold seg. cbn [fst snd].
  rewrite He, !Nat2Z.id. rewrite Hfd at 1.
  by rewrite drop_app_length, take_app_length.
Qed.

Lemma seg_elem_of r k : k ∈ seg fd r -> k ∈ fd.*1.
Proof.
  unfold seg. intros H. apply list_elem_of_fmap in H as (x & -> & Hx).
  apply list_elem_of_fmap. exists x. split; [done|].
  by apply subseteq_take, subseteq_drop in Hx.
Qed.
Lemma stack_cost_cons r stack :
  stack_cost (r :: stack)
  = (Z.to_nat (2 * (r.2 - r.1) + 1) + stack_cost stack)%nat.
Proof. done. Qed.

Lemma segment_pos pre es post :
  fd = pre ++ es ++ post -> Forall (fun e => 0 < e.2)%Q es.
Proof.
  intros Hfd. pose proof fd_pos as H. rewrite Hfd in H.
  by apply Forall_app in H as [_ [? _]%Forall_app].
Qed.

Lemma segment_sorted pre es post :
  fd = pre ++ es ++ post -> StronglySorted desc es.
Proof.
  intros Hfd. pose proof fd_sorted as H. rewrite Hfd in H.
  by apply StronglySorted_app_1_r, StronglySorted_app_1_l in H.
Qed.

(** One turn of the loop on a valid range [(s, e)], whose symbols are
    [g0 ++ g1]: a range of one symbol is dropped; in a longer range the
    symbols of [g0] get a ['0'] and those of [g1] a ['1'], and a range of
    three or more is replaced by the two ranges of [g0] and [g1], cut at
    an index strictly inside the range. *)
Lemma encode_step_run s e stack enc :
  valid fd (s, e) ->
  exists g0 g1 stack' enc',
    seg fd (s, e) = g0 ++ g1 /\
    encode_step fd s e stack enc = Done (stack', enc') /\
    ((s = e /\ stack' = stack /\ enc' = enc /\ g1 = [] /\ exists k, g0 = [k])
     \/ (s <> e /\ enc' = assign true (assign false enc g0) g1 /\
         ((e - s = 1 /\ stack' = stack /\
           exists k0 k1, g0 = [k0] /\ g1 = [k1])
          \/ (2 <= e - s /\
              exists p, s < p <= e /\
                        stack' = (s, p - 1) :: (p, e) :: stack /\
                        seg fd (s, p - 1) = g0 /\ seg fd (p, e) = g1)))).
Proof.
  intros Hse.
  destruct (valid_split s e Hse) as (pre & es & post & Hfd & Hs & He).
  unfold valid in Hse. cbn [fst snd] in Hse.
  rewrite (seg_segment pre es post) by done.
  unfold encode_step.
  destruct (Z.eqb_spec s e) as [Heq|Hne].
  - destruct es as [|x [|??]]; simpl in He; try lia.
    exists [x.1], [], stack, enc. split_and!; [done..|].
    left. split_and!; try done. by exists x.1.
  - destruct (Z.eqb_spec (e - s) 1) as [H1|H1].
    + destruct es as [|x [|y [|??]]]; simpl in He; try lia.
      assert (py_index fd s = Done x) as ->.
      { rewrite Hs. by apply (py_index_middle fd pre x (y :: post)). }
      assert (py_index fd e = Done y) as ->.
      { replace e with (Z.of_nat (length (pre ++ [x])))
          by (rewrite length_app; simpl; lia).
        apply (py_index_middle fd (pre ++ [x]) y post).
        by rewrite <- app_assoc. }
      cbn [obind]. exists [x.1], [y.1]. eexists _, _.
      split_and!; [done..|].
      right. split_and!; [done..|]. left. split_and!; try done.
      by exists x.1, y.1.
    + assert (3 <= length es)%nat as Hlen by lia.
      pose proof (segment_pos pre es post Hfd) as Hpos.
      pose proof (segment_sorted pre es post Hfd) as Hsorted.
      assert (py_range s (e + 1)
              = py_range_from (Z.of_nat (length pre)) (length es)) as ->.
      { unfold py_range. f_equal; lia. }
      rewrite (sum_loop_segment fd es pre post) by done. cbn [obind].
      set (half := (foldl (fun a e => a + e.2) 0 es * (1 # 2))%Q).
      destruct (split_loop_zeros fd es pre post half 0%Q enc)
        as (es0 & es1 & Hes & Hes1 & Hes0 & Hrun);
        [done|done|intros ->; simpl in Hlen; lia|by apply crossing|].
      assert (es0 <> []) as Hne0.
      { apply Hes0. unfold half. rewrite foldl_qsum.
        assert (0 <= qsum es.*2)%Q
          by (apply qsum_nonneg; by rewrite Forall_fmap).
        lra. }
      rewrite Hrun. cbn [obind].
      assert (0 < length es0)%nat by (destruct es0; [done|simpl; lia]).
      assert (0 < length es1)%nat by (destruct es1; [done|simpl; lia]).
      assert (length es = length es0 + length es1)%nat as Hlens
          by (by rewrite Hes, length_app).
      set (pidx := Z.of_nat (length pre + length es0)).
      assert (seg fd (s, pidx - 1) = es0.*1) as Hseg0.
      { apply (seg_segment pre es0 (es1 ++ post)); [|done|unfold pidx; lia].
        by rewrite Hfd, Hes, <- !app_assoc. }
      assert (seg fd (pidx, e) = es1.*1) as Hseg1.
      { apply (seg_segment (pre ++ es0) es1 post).
        - by rewrite Hfd, Hes, <- !app_assoc.
        - unfold pidx. by rewrite length_app.
        - unfold pidx. lia. }
      exists es0.*1, es1.*1. eexists _, _.
      split_and!; [by rewrite Hes, fmap_app|done|].
      right. split_and!; [done..|]. right. split; [lia|].
      exists pidx. split_and!; try done; unfold pidx; lia.
Qed.

(** The turn keeps the ranges valid and makes the stack cheaper. *)
Lemma encode_step_valid s e stack enc :
  Forall (valid fd) ((s, e) :: stack) ->
  exists stack' enc',
    encode_step fd s e stack enc = Done (stack', enc') /\
    Forall (valid fd) stack' /\
    (stack_cost stack' < stack_cost ((s, e) :: stack))%nat.
Proof.
  intros [Hse Hvalid]%Forall_cons.
  destruct (encode_step_run s e stack enc Hse)
    as (g0 & g1 & stack' & enc' & _ & Hrun & Hcases).
  exists stack', enc'. split; [done|].
  unfold valid in Hse. cbn [fst snd] in Hse. rewrite stack_cost_cons. cbn [fst snd].
  destruct Hcases as [(_ & -> & _)|(_ & _ & [(_ & -> & _)|(? & p & ? & -> & _)])].
  - split; [done|lia].
  - split; [done|lia].
  - split.
    + repeat apply Forall_cons_2; [..|done]; unfold valid; cbn [fst snd]; lia.
    + rewrite !stack_cost_cons. cbn [fst snd]. lia.
Qed.

Lemma stack_cost_pos r stack :
  valid fd r -> (0 < stack_cost (r :: stack))%nat.
Proof. unfold valid. rewrite stack_cost_cons. lia. Qed.



(** From here on the symbols of the list are distinct. *)
Hypothesis fd_nodup : NoDup fd.*1.

(** The turn keeps the invariant of the stack. *)
Lemma encode_step_ok s e stack enc :
  stack_inv fd ((s, e) :: stack) enc ->
  exists stack' enc',
    encode_step fd s e stack enc = Done (stack', enc') /\
    stack_inv fd stack' enc' /\
    (stack_cost stack' < stack_cost ((s, e) :: stack))%nat /\
    (enc.*1 = fd.*1 \/ (enc = [] /\ seg fd (s, e) = fd.*1 /\ s <> e) ->
     enc'.*1 = fd.*1).
Proof.
  intros [Hvalid Hseg].
  destruct (encode_step_valid s e stack enc Hvalid)
    as (stack' & enc' & Hrun & Hvalid' & Hcost).
  apply Forall_cons in Hvalid as [Hse Hvalid].
  destruct (encode_step_run s e stack enc Hse)
    as (g0 & g1 & stack'' & enc'' & Hg & Hrun' & Hcases).
  rewrite Hrun in Hrun'. injection Hrun' as <- <-.
  assert (seg fd (s, e) ⊆ fd.*1) as Hsub by (intros k; apply seg_elem_of).
  rewrite fmap_cons in Hseg. rewrite Hg in Hseg, Hsub |- *.
  assert (NoDup (g0 ++ g1)) as Hnd.
  { destruct Hseg as [Hnd _ _]. simpl in Hnd.
    by apply NoDup_app in Hnd as (? & _ & _). }
  exists stack', enc'. split_and!; [done| |done|].
  - split; [done|].
    destruct Hcases
      as [(_ & -> & -> & -> & k & ->)
         |(_ & -> & [(_ & -> & k0 & k1 & -> & ->)
                    |(_ & p & _ & -> & <- & <-)])].
    + by eapply seg_inv_pop.
    + apply seg_inv_split in Hseg.
      by apply seg_inv_pop, seg_inv_pop in Hseg.
    + rewrite !fmap_cons. by apply seg_inv_split.
  - intros Hk.
    destruct Hcases as [(? & _ & -> & _)|(? & -> & _)]; [tauto|].
    apply keys_split; [done|done|tauto].
Qed.

(** The loop ends within [stack_cost stack] turns, and it ends with a
    prefix-free table. *)
Lemma encode_loop_ok fuel stack enc :
  stack_inv fd stack enc ->
  (stack_cost stack <= fuel)%nat ->
  exists enc', encode_loop fuel fd stack enc = Done enc'
               /\ seg_inv fd.*1 [] enc'
               /\ (enc.*1 = fd.*1 -> enc'.*1 = fd.*1).
Proof.
  revert stack enc. induction fuel as [|fuel IH]; intros stack enc Hinv Hcost.
  - destruct stack as [|r stack].
    + exists enc. split_and!; [done| |done]. apply Hinv.
    + destruct Hinv as [Hvalid _]. apply Forall_cons in Hvalid as [Hr _].
      pose proof (stack_cost_pos r stack Hr). lia.
  - destruct stack as [|[s e] stack].
    + exists enc. split_and!; [done| |done]. apply Hinv.
    + destruct (encode_step_ok s e stack enc Hinv)
        as (stack' & enc' & Hstep & Hinv' & Hlt & Hkeys).
      cbn [encode_loop]. rewrite Hstep. cbn [obind fst snd].
      destruct (IH stack' enc') as (enc'' & Hrun & Hfinal & Hkeys');
        [done|lia|].
      exists enc''. split_and!; [done..|]. auto.
Qed.

(** [encode] returns within [2 * n - 1] turns of its loop, for a list of
    [n >= 1] frequencies. *)
Lemma encode_ok fuel :
  fd <> [] ->
  (2 * length fd - 1 <= fuel)%nat ->
  exists enc, encode fuel fd = Done enc
              /\ seg_inv fd.*1 [] enc
              /\ ((2 <= length fd)%nat -> enc.*1 = fd.*1).
Proof.
  intros Hne Hfuel. unfold encode.
  assert (0 < length fd)%nat by (destruct fd; [done|simpl; lia]).
  set (e := Z.of_nat (length fd) - 1).
  assert (seg fd (0, e) = fd.*1) as Hseg.
  { apply (seg_segment [] fd []); [by rewrite app_nil_r|done|simpl; lia]. }
  assert (stack_inv fd [(0, e)] []) as Hinv.
  { split.
    - apply Forall_singleton. unfold valid. cbn [fst snd]. lia.
    - rewrite fmap_cons, fmap_nil, Hseg. by apply seg_inv_init. }
  assert (stack_cost [(0, e)] = (2 * length fd - 1)%nat) as Hcost.
  { unfold stack_cost. simpl. lia. }
  destruct fuel as [|fuel]; [lia|].
  destruct (encode_step_ok 0 e [] [] Hinv)
    as (stack' & enc' & Hstep & Hinv' & Hlt & Hkeys).
  cbn [encode_loop]. rewrite Hstep. cbn [obind fst snd].
  destruct (encode_loop_ok fuel stack' enc') as (enc'' & Hrun & Hfinal & Hkeys');
    [done|lia|].
  exists enc''. split_and!; [done..|].
  intros Hlen. apply Hkeys', Hkeys. right. split_and!; [done..|lia].
Qed.
End encode_correct.

(** More fuel does not change a result. *)
Lemma encode_loop_mono fuel fuel' (fd : frequency_data) stack enc r :
  encode_loop fuel fd stack enc = Done r ->
  (fuel <= fuel')%nat ->
  encode_loop fuel' fd stack enc = Done r.
Proof.
  revert fuel' stack enc.
  induction fuel as [|fuel IH]; intros fuel' stack enc Hrun Hle.
  - destruct stack as [|[s e] stack]; [|done]. by destruct fuel'.
  - destruct stack as [|[s e] stack]; [by destruct fuel'|].
    destruct fuel' as [|fuel']; [lia|].
    cbn [encode_loop] in Hrun |- *.
    destruct (encode_step fd s e stack enc) as [[stack' enc']| |]; [|done..].
    cbn [obind] in Hrun |- *. apply IH; [done|lia].
Qed.

(** * [frequency] *)

Section frequency.
Implicit Types (counter : list (symbol * Z)) (input : list symbol).

Lemma keys_counter_update counter char :
  (counter_update counter char).*1
  = if decide (char ∈ counter.*1) then counter.*1 else counter.*1 ++ [char].
Proof.
  induction counter as [|[k n] counter IH].
  - done.
  - cbn [counter_update]. rewrite !fmap_cons. cbn [fst].
    destruct (Z.eqb_spec k char) as [->|Hne].
    + rewrite decide_True; [done|apply elem_of_cons; by left].
    + rewrite fmap_cons, IH. cbn [fst].
      destruct (decide (char ∈ counter.*1)).
      * rewrite decide_True; [done|apply elem_of_cons; by right].
      * rewrite decide_False; [done|].
        apply not_elem_of_cons. split; [done|done].
Qed.

Lemma counter_update_pos counter char :
  Forall (fun e => 0 < e.2) counter ->
  Forall (fun e => 0 < e.2) (counter_update counter char).
Proof.
  induction 1 as [|[k n] counter Hn Hrest IH]; cbn [counter_update].
  - apply Forall_singleton. simpl. lia.
  - cbn [snd] in Hn. destruct (k =? char); apply Forall_cons; cbn [snd].
    + split; [lia|done].
    + split; [lia|done].
Qed.

Lemma counter_update_nodup counter char :
  NoDup counter.*1 -> NoDup (counter_update counter char).*1.
Proof.
  intros Hnd. rewrite keys_counter_update. case_decide; [done|].
  apply NoDup_app. split_and!; [done| |apply NoDup_singleton].
  intros k Hk ->%list_elem_of_singleton. done.
Qed.

Lemma count_chars_from input counter :
  NoDup counter.*1 ->
  Forall (fun e => 0 < e.2) counter ->
  let counter' := fold_left counter_update input counter in
  NoDup counter'.*1 /\
  Forall (fun e => 0 < e.2) counter' /\
  (forall k, k ∈ counter'.*1 <-> k ∈ counter.*1 \/ k ∈ input).
Proof.
  revert counter. induction input as [|char input IH]; intros counter Hnd Hpos.
  - simpl. split_and!; [done..|]. intros k. rewrite elem_of_nil. tauto.
  - cbn [fold_left].
    destruct (IH (counter_update counter char)) as (Hnd' & Hpos' & Hkeys).
    { by apply counter_update_nodup. }
    { by apply counter_update_pos. }
    split_and!; [done..|]. intros k. rewrite Hkeys, keys_counter_update.
    rewrite elem_of_cons. case_decide; [|rewrite elem_of_app, list_elem_of_singleton].
    + split; [tauto|]. intros [?|[->|?]]; tauto.
    + tauto.
Qed.

Lemma insert_by_count_perm x l : insert_by_count x l ≡ₚ x :: l.
Proof.
  induction l as [|y l IH]; simpl; [done|].
  destruct (x.2 <? y.2); [|done]. rewrite IH. apply Permutation_swap.
Qed.

Lemma insert_by_count_sorted x l :
  StronglySorted by_count l -> StronglySorted by_count (insert_by_count x l).
Proof.
  induction 1 as [|y l Hl IH Hy]; simpl.
  - repeat constructor.
  - destruct (Z.ltb_spec x.2 y.2).
    + constructor; [done|]. rewrite insert_by_count_perm.
      apply Forall_cons. split; [unfold by_count; lia|done].
    + constructor; [by constructor|].
      apply Forall_cons. split; [done|].
      eapply Forall_impl; [exact Hy|]. unfold by_count. intros; simpl in *. lia.
Qed.

Lemma most_common_perm counter : most_common counter ≡ₚ counter.
Proof.
  induction counter as [|x counter IH]; simpl; [done|].
  by rewrite insert_by_count_perm, IH.
Qed.

Lemma most_common_sorted counter : StronglySorted by_count (most_common counter).
Proof.
  induction counter as [|x counter IH]; simpl; [constructor|].
  by apply insert_by_count_sorted.
Qed.

Lemma frequency_keys input :
  (frequency input).2.*1 = (most_common (count_chars input)).*1.
Proof.
  unfold frequency. cbn [snd]. rewrite <- list_fmap_compose.
  apply list_fmap_ext. by intros _ [??] _.
Qed.

Lemma frequency_nodup input : NoDup (frequency input).2.*1.
Proof.
  rewrite frequency_keys, most_common_perm.
  by apply (count_chars_from input []); [apply NoDup_nil|].
Qed.

Lemma frequency_elem_of input k : k ∈ (frequency input).2.*1 <-> k ∈ input.
Proof.
  rewrite frequency_keys, most_common_perm.
  destruct (count_chars_from input []) as (_ & _ & Hkeys);
    [by apply NoDup_nil|done|].
  unfold count_chars. rewrite Hkeys. simpl. rewrite elem_of_nil. tauto.
Qed.

Lemma frequency_length input : length (frequency input).2 = distinct input.
Proof.
  unfold distinct. rewrite <- (length_fmap fst).
  apply Permutation_length, NoDup_Permutation.
  - apply frequency_nodup.
  - apply NoDup_remove_dups.
  - intros k. by rewrite frequency_elem_of, elem_of_remove_dups.
Qed.


Lemma frequency_pos input : Forall (fun e => 0 < e.2)%Q (frequency input).2.
Proof.
  destruct input as [|c input]; [by apply Forall_nil|].
  unfold frequency. cbn [snd]. set (total := Z.of_nat _).
  assert (0 < total) by (unfold total; simpl; lia).
  apply Forall_fmap.
  destruct (count_chars_from (c :: input) []) as (_ & Hpos & _);
    [by apply NoDup_nil|done|].
  fold (count_chars (c :: input)) in Hpos.
  rewrite <- most_common_perm in Hpos.
  eapply Forall_impl; [exact Hpos|]. intros [k n] Hn. simpl in *.
  apply Qmult_lt_0_compat; [|apply Qinv_lt_0_compat];
    by rewrite <- (Zlt_Qlt 0).
Qed.

Lemma frequency_sorted input : StronglySorted desc (frequency input).2.
Proof.
  destruct input as [|c input]; [constructor|].
  unfold frequency. cbn [snd]. set (total := Z.of_nat _).
  assert (0 < total) by (unfold total; simpl; lia).
  eapply StronglySorted_fmap; [|apply most_common_sorted].
  intros [k n] [k' n']. unfold by_count, desc. simpl. intros Hle.
  apply Qmult_le_compat_r; [by rewrite <- Zle_Qle|].
  apply Qinv_le_0_compat. by rewrite <- (Zle_Qle 0); lia.
Qed.
End frequency.

(** * The code table of [encode] *)


Lemma seg_inv_prefix_code (syms : list symbol) (enc : encoder) :
  seg_inv syms [] enc -> NoDup enc.*1 -> enc.*1 ⊆ syms -> prefix_code enc.
Proof.
  intros Hinv Hnd Hsub k v k' v' Hk Hk' Hne.
  assert (k ∈ syms) by (apply Hsub, list_elem_of_fmap; by exists (k, v)).
  assert (k' ∈ syms) by (apply Hsub, list_elem_of_fmap; by exists (k', v')).
  assert (code enc k = v) as <-
      by (unfold code; by rewrite (elem_encoder_get enc k v)).
  assert (code enc k' = v') as <-
      by (unfold code; by rewrite (elem_encoder_get enc k' v')).
  by apply (seg_inv_final syms enc k k').
Qed.


(** On a sorted list of [n >= 2] positive frequencies of distinct symbols,
    [encode] returns within [2 * n - 1] turns a prefix code for exactly
    the symbols of the list, in their order. *)
Lemma encode_total (fd : frequency_data) (fuel : nat) :
  NoDup fd.*1 ->
  Forall (fun e => 0 < e.2)%Q fd ->
  StronglySorted desc fd ->
  (2 <= length fd)%nat ->
  (2 * length fd - 1 <= fuel)%nat ->
  exists enc, encode fuel fd = Done enc /\ enc.*1 = fd.*1 /\ prefix_code enc.
Proof.
  intros Hnd Hpos Hsorted Hlen Hfuel.
  destruct (encode_ok fd Hpos Hsorted Hnd fuel) as (enc & Hrun & Hinv & Hkeys);
    [intros ->; simpl in Hlen; lia|done|].
  exists enc. split_and!; [done|by apply Hkeys|].
  apply (seg_inv_prefix_code fd.*1); [done| |]; by rewrite Hkeys.
Qed.

(** A list of one frequency gives the empty table. *)
Lemma encode_single (x : symbol * Q) (fuel : nat) :
  (1 <= fuel)%nat -> encode fuel [x] = Done [].
Proof. intros H. destruct fuel; [lia|]. by destruct fuel. Qed.

(** A range [(0, -2)] on top of the stack is pushed back at every turn,
    whatever the list. *)
Lemma encode_loop_stuck (fuel : nat) (fd : frequency_data)
    (stack : list (Z * Z)) (enc : encoder) :
  encode_loop fuel fd ((0, -2) :: stack) enc = Timeout.
Proof.
  revert stack. induction fuel as [|fuel IH]; intros stack; [done|].
  cbn [encode_loop]. unfold encode_step. simpl. apply IH.
Qed.

(** [encode] never returns on the empty list. *)
Lemma encode_empty (fuel : nat) : encode fuel [] = Timeout.
Proof.
  destruct fuel as [|fuel]; [done|].
  unfold encode. cbn [encode_loop]. unfold encode_step. simpl.
  apply encode_loop_stuck.
Qed.

(** * The header: [pack_metadata] and [unpack_metadata] *)

Section header.
Implicit Types (enc : encoder) (out : list Z).

Lemma wbind_lift_Done {A B} (m : outcome A) (k : A -> writer B) out r out' :
  (do! x := wlift m in k x) out = (Done r, out') ->
  exists a, m = Done a /\ k a out = (Done r, out').
Proof.
  unfold wbind, wlift. destruct m as [a| |]; [|done..]. intros H. by exists a.
Qed.

Lemma int2_to_byte_Done (s : list bool) (b : Z) :
  (let? v := int2 s in to_byte v) = Done b ->
  s <> [] /\ b = bits_value s /\ bits_value s < 256.
Proof.
  destruct s as [|x s]; [done|]. cbn [int2 obind].
  intros [-> ?]%to_byte_inv. split_and!; [done|done|lia].
Qed.

Lemma int2_to_byte_ok (s : list bool) :
  s <> [] -> bits_value s < 256 ->
  (let? v := int2 s in to_byte v) = Done (bits_value s).
Proof.
  intros Hs Hv. destruct s as [|x s]; [done|]. cbn [int2 obind].
  apply to_byte_Done. pose proof (bits_value_range (x :: s)). lia.
Qed.

Lemma pack_entries_inv enc out out' :
  pack_entries enc out = (Done tt, out') ->
  Forall storable enc /\ out' = out ++ (enc ≫= entry_bytes).
Proof.
  revert out. induction enc as [|[k v] enc IH]; intros out H.
  - injection H as <-. split; [done|]. by rewrite app_nil_r.
  - cbn [pack_entries] in H.
    apply wbind_lift_Done in H as (b1 & [-> Hk]%to_byte_inv & H).
    apply wbind_lift_Done in H as (b2 & [-> Hl]%to_byte_inv & H).
    apply wbind_lift_Done in H as (b3 & (Hv & -> & Hval)%int2_to_byte_Done & H).
    unfold wbind at 1 2 3, write in H.
    apply IH in H as [Hrest ->]. split.
    + apply Forall_cons. split; [|done].
      unfold storable. cbn [fst snd]. split_and!; [lia|lia|done|lia|done].
    + rewrite bind_cons. unfold entry_bytes at 2. simpl.
      by rewrite <- !app_assoc.
Qed.

Lemma pack_entries_ok enc out :
  Forall storable enc ->
  pack_entries enc out = (Done tt, out ++ (enc ≫= entry_bytes)).
Proof.
  intros H. revert out.
  induction H as [|[k v] enc (Hk & Hv & Hl & Hval) _ IH]; intros out.
  - simpl. by rewrite app_nil_r.
  - cbn [pack_entries fst snd] in *.
    unfold wbind at 1, wlift at 1. rewrite to_byte_Done by done.
    unfold wbind at 1, wlift at 1. rewrite to_byte_Done by lia.
    unfold wbind at 1, wlift at 1. rewrite int2_to_byte_ok by done.
    unfold wbind at 1 2 3, write. rewrite IH.
    rewrite bind_cons. unfold entry_bytes at 2. simpl.
    by rewrite <- !app_assoc.
Qed.

Lemma pack_metadata_inv enc (t : Z) (fd : frequency_data) out out' :
  pack_metadata enc t fd out = (Done tt, out') ->
  Z.of_nat (length fd) < 256 /\ (0 <= t < 256) /\ Forall storable enc /\
  out' = out ++ header_bytes enc (Z.of_nat (length fd)) t.
Proof.
  unfold pack_metadata. intros H.
  apply wbind_lift_Done in H as (b1 & [-> Hn]%to_byte_inv & H).
  unfold wbind at 1, write at 1 in H.
  apply wbind_lift_Done in H as (b2 & [-> Ht]%to_byte_inv & H).
  unfold wbind at 1, write at 1 in H.
  apply pack_entries_inv in H as [Hst ->].
  split; [lia|split; [lia|split; [done|]]].
  unfold header_bytes. by rewrite <- !app_assoc.
Qed.

Lemma pack_metadata_ok enc (t : Z) (fd : frequency_data) out :
  Z.of_nat (length fd) < 256 -> 0 <= t < 256 -> Forall storable enc ->
  pack_metadata enc t fd out
  = (Done tt, out ++ header_bytes enc (Z.of_nat (length fd)) t).
Proof.
  intros Hn Ht Hst. unfold pack_metadata.
  unfold wbind at 1, wlift at 1. rewrite to_byte_Done by lia.
  unfold wbind at 1, write at 1.
  unfold wbind at 1, wlift at 1. rewrite to_byte_Done by lia.
  unfold wbind at 1, write at 1.
  rewrite pack_entries_ok by done.
  unfold header_bytes. by rewrite <- !app_assoc.
Qed.


(** Reading the entries back. *)
Lemma read_entries_spec enc (rest : list Z) d vl :
  Forall storable enc ->
  read_entries (length enc) ((enc ≫= entry_bytes) ++ rest) d vl
  = (decoder_from d enc, lens_from vl enc, rest).
Proof.
  intros H. revert d vl.
  induction H as [|[k v] enc (Hk & Hv & Hl & Hval) _ IH]; intros d vl; [done|].
  cbn [length read_entries]. rewrite bind_cons. unfold entry_bytes at 1.
  cbn [fst snd app read1 from_byte] in *.
  rewrite Nat2Z.id, rjust_bin_value by done. apply IH.
Qed.

Lemma unpack_metadata_header enc (n t : Z) (rest : list Z) :
  Forall storable enc ->
  n = Z.of_nat (length enc) ->
  unpack_metadata (header_bytes enc n t ++ rest)
  = (t, decoder_from ∅ enc, lens_from ∅ enc, rest).
Proof.
  intros Hst ->. unfold unpack_metadata, header_bytes.
  cbn [app read1 from_byte]. rewrite Nat2Z.id.
  by rewrite read_entries_spec.
Qed.

Lemma decoder_from_lookup enc d (w : list bool) (k : symbol) :
  NoDup enc.*2 ->
  decoder_from d enc !! w = Some k
  <-> (k, w) ∈ enc \/ (w ∉ enc.*2 /\ d !! w = Some k).
Proof.
  revert d. induction enc as [|[k' v'] enc IH]; intros d Hnd.
  - simpl. rewrite elem_of_nil. split; [intros; right; split; [apply not_elem_of_nil|done]|].
    intros [[]|[_ ?]]; done.
  - rewrite fmap_cons in Hnd. apply NoDup_cons in Hnd as [Hv' Hnd].
    change (decoder_from d ((k', v') :: enc))
      with (decoder_from (<[v' := k']> d) enc).
    rewrite IH by done. rewrite fmap_cons, not_elem_of_cons, elem_of_cons.
    cbn [snd]. destruct (decide (v' = w)) as [->|Hne].
    + rewrite lookup_insert_eq. split.
      * intros [?|[Hw [= ->]]]; [by left; right|by left; left].
      * intros [[[= -> ]|?]|[[? _] _]]; [by right| |done].
        exfalso. apply Hv'. apply list_elem_of_fmap. by exists (k, w).
    + rewrite lookup_insert_ne by done. split.
      * intros [?|[? ?]]; [by left; right|by right].
      * intros [[[= -> ->]|?]|[[_ ?] ?]]; [done|by left|by right].
Qed.

Lemma lens_from_elem_of enc (vl : gset Z) (n : Z) :
  n ∈ lens_from vl enc
  <-> n ∈ vl \/ exists e, e ∈ enc /\ n = Z.of_nat (length e.2).
Proof.
  revert vl. induction enc as [|e enc IH]; intros vl.
  - simpl. split; [by left|]. intros [?|(e & He & _)]; [done|].
    by apply elem_of_nil in He.
  - change (lens_from vl (e :: enc))
      with (lens_from ({[Z.of_nat (length e.2)]} ∪ vl) enc).
    rewrite IH, elem_of_union, elem_of_singleton. split.
    + intros [[->|?]|(e' & He' & ->)].
      * right. exists e. split; [apply elem_of_cons; by left|done].
      * by left.
      * right. exists e'. split; [apply elem_of_cons; by right|done].
    + intros [?|(e' & [->|He']%elem_of_cons & ->)].
      * left; by right.
      * left; by left.
      * right. by exists e'.
Qed.
End header.

(** * The payload: [pack_data] *)

Section payload.
Implicit Types (enc : encoder) (out bs : list Z) (bits : list bool).

Lemma expand_cons b bs : expand (b :: bs) = rjust BYTE_LENGTH (bin b) ++ expand bs.
Proof. done. Qed.

Lemma expand_app bs1 bs2 : expand (bs1 ++ bs2) = expand bs1 ++ expand bs2.
Proof. unfold expand. apply bind_app. Qed.

Lemma byte_bits_length b : is_byte b -> length (rjust BYTE_LENGTH (bin b)) = 8%nat.
Proof.
  intros Hb. unfold BYTE_LENGTH. rewrite rjust_bin; [apply to_bits_length|lia|].
  unfold is_byte in Hb. simpl. lia.
Qed.

Lemma expand_length bs : Forall is_byte bs -> length (expand bs) = (8 * length bs)%nat.
Proof.
  induction 1 as [|b bs Hb _ IH]; [done|].
  rewrite expand_cons, length_app, byte_bits_length, IH by done. simpl. lia.
Qed.

(** Packing eight bits in a byte and expanding the byte again. *)
Lemma byte_of_chunk (chunk : list bool) :
  length chunk = 8%nat ->
  (let? v := int2 chunk in to_byte v) = Done (bits_value chunk)
  /\ is_byte (bits_value chunk)
  /\ rjust BYTE_LENGTH (bin (bits_value chunk)) = chunk.
Proof.
  intros Hlen. pose proof (bits_value_range chunk) as Hr. rewrite Hlen in Hr.
  change (2 ^ Z.of_nat 8) with 256 in Hr.
  assert (chunk <> []) by (intros ->; done).
  split_and!.
  - by apply int2_to_byte_ok; [|lia].
  - done.
  - unfold BYTE_LENGTH. rewrite <- Hlen. by apply rjust_bin_value.
Qed.

Lemma flush_loop_spec fuel bits out :
  (length bits <= fuel)%nat ->
  exists bs bits',
    flush_loop fuel bits out = (Done bits', out ++ bs) /\
    expand bs ++ bits' = bits /\
    (length bits' <= 8)%nat /\
    (bits <> [] -> bits' <> []) /\
    Forall is_byte bs.
Proof.
  revert bits out. induction fuel as [|fuel IH]; intros bits out Hfuel.
  - destruct bits; [|simpl in Hfuel; lia].
    exists [], []. split_and!; [by rewrite app_nil_r|done|simpl; lia|done|done].
  - cbn [flush_loop]. unfold BYTE_LENGTH.
    destruct (Nat.ltb_spec 8 (length bits)) as [Hlong|Hshort].
    + destruct (byte_of_chunk (take 8 bits)) as (Hbyte & Hrange & Hback);
        [rewrite length_take; lia|].
      unfold wbind at 1, wlift at 1. rewrite Hbyte.
      unfold wbind at 1, write at 1.
      destruct (IH (drop 8 bits) (out ++ [bits_value (take 8 bits)]))
        as (bs & bits' & Hrun & Hbits & Hlen & Hne & Hbs);
        [rewrite length_drop; lia|].
      exists (bits_value (take 8 bits) :: bs), bits'. split_and!.
      * rewrite Hrun. by rewrite <- app_assoc.
      * rewrite expand_cons, Hback, <- app_assoc, Hbits. apply take_drop.
      * done.
      * intros _. apply Hne. intros Hnil.
        apply (f_equal length) in Hnil. rewrite length_drop in Hnil.
        simpl in Hnil. lia.
      * by apply Forall_cons.
    + exists [], bits. split_and!; [by rewrite app_nil_r|done..].
Qed.

Lemma pack_chars_spec input enc bits out :
  Forall (fun c => is_Some (encoder_get enc c)) input ->
  (length bits <= 8)%nat ->
  exists bs bits',
    pack_chars input enc bits out = (Done bits', out ++ bs) /\
    expand bs ++ bits' = bits ++ stream enc input /\
    (length bits' <= 8)%nat /\
    (bits ++ stream enc input <> [] -> bits' <> []) /\
    Forall is_byte bs.
Proof.
  intros Hall. revert bits out.
  induction Hall as [|c input [v Hv] _ IH]; intros bits out Hlen.
  - exists [], bits. unfold stream. simpl.
    split_and!; [by rewrite app_nil_r|by rewrite app_nil_r|done| |done].
    by rewrite app_nil_r.
  - cbn [pack_chars]. rewrite Hv.
    destruct (flush_loop_spec (length (bits ++ v)) (bits ++ v) out)
      as (bs1 & bits1 & Hrun1 & Hbits1 & Hlen1 & Hne1 & Hbs1); [done|].
    unfold wbind at 1. rewrite Hrun1.
    destruct (IH bits1 (out ++ bs1) Hlen1)
      as (bs2 & bits2 & Hrun2 & Hbits2 & Hlen2 & Hne2 & Hbs2).
    exists (bs1 ++ bs2), bits2.
    assert (stream enc (c :: input) = v ++ stream enc input) as ->.
    { unfold stream. rewrite bind_cons. unfold code at 1. by rewrite Hv. }
    split_and!.
    + rewrite Hrun2. by rewrite <- app_assoc.
    + rewrite expand_app, <- app_assoc, Hbits2, !app_assoc, Hbits1. done.
    + done.
    + intros Hne. apply Hne2. intros [Hb1 Hs]%app_eq_nil.
      destruct (decide (bits ++ v = [])) as [Hbv|Hbv].
      * apply Hne. by rewrite app_assoc, Hbv, Hs.
      * by apply Hne1.
    + by apply Forall_app.
Qed.
Lemma pack_data_spec input enc out :
  Forall (fun c => is_Some (encoder_get enc c)) input ->
  exists bs pad,
    pack_data input enc out = (Done tt, out ++ bs) /\
    expand bs = stream enc input ++ replicate pad false /\
    (pad < 8)%nat /\
    Forall is_byte bs /\
    (stream enc input = [] -> bs = []).
Proof.
  intros Hall.
  destruct (pack_chars_spec input enc [] out Hall)
    as (bs & bits & Hrun & Hbits & Hlen & Hne & Hbs); [simpl; lia|].
  rewrite app_nil_l in Hbits, Hne.
  unfold pack_data, wbind at 1. rewrite Hrun.
  destruct bits as [|b bits].
  - rewrite app_nil_r in Hbits. exists bs, 0%nat.
    split_and!; [done|by rewrite app_nil_r|lia|done|].
    intros Hs. rewrite Hs in Hbits. apply (f_equal length) in Hbits.
    rewrite expand_length in Hbits by done. destruct bs; [done|simpl in Hbits; lia].
  - destruct (byte_of_chunk (ljust BYTE_LENGTH (b :: bits)))
      as (Hbyte & Hrange & Hback).
    { unfold ljust, BYTE_LENGTH. rewrite length_app, length_replicate. lia. }
    unfold wbind, wlift. rewrite Hbyte. unfold write.
    exists (bs ++ [bits_value (ljust BYTE_LENGTH (b :: bits))]),
      (8 - length (b :: bits))%nat.
    split_and!.
    + by rewrite <- app_assoc.
    + rewrite expand_app, expand_cons, Hback. unfold expand at 2. simpl.
      rewrite app_nil_r. unfold ljust, BYTE_LENGTH.
      rewrite <- Hbits. by rewrite <- app_assoc.
    + simpl. lia.
    + apply Forall_app. split; [done|]. by apply Forall_singleton.
    + intros Hs. rewrite Hs in Hbits. by apply app_eq_nil in Hbits as [_ ?].
Qed.


End payload.

(** * The payload: [unpack_data] *)

Lemma app_split_lt {A} (bits X c Y : list A) (bit : A) :
  bits ++ bit :: X = c ++ Y ->
  (length bits < length c)%nat ->
  exists c', c = bits ++ bit :: c' /\ X = c' ++ Y.
Proof.
  revert c. induction bits as [|a bits IH]; intros c Heq Hlen.
  - destruct c as [|a' c]; [simpl in Hlen; lia|].
    simpl in Heq. injection Heq as -> ->. by exists c.
  - destruct c as [|a' c]; [simpl in Hlen; lia|].
    simpl in Heq, Hlen. injection Heq as -> Heq.
    destruct (IH c Heq) as (c' & -> & ->); [lia|]. by exists c'.
Qed.

Section unpack.
Variable enc : encoder.
Variable decoder : gmap (list bool) symbol.
Variable val_lens : gset Z.
Hypothesis enc_nodup : NoDup enc.*1.
Hypothesis enc_prefix : prefix_code enc.
Hypothesis enc_nonempty : Forall (fun e => e.2 <> []) enc.
Hypothesis dec_hit : forall k v, (k, v) ∈ enc -> decoder !! v = Some k.
Hypothesis dec_only : forall k w, decoder !! w = Some k -> (k, w) ∈ enc.
Hypothesis lens_hit :
  forall k v, (k, v) ∈ enc -> Z.of_nat (length v) ∈ val_lens.

Implicit Types (bits byte tail pad : list bool) (rest out : list symbol).

Lemma code_elem_of r : r ∈ enc.*1 -> (r, code enc r) ∈ enc.
Proof.
  intros Hr. unfold code.
  destruct (encoder_get enc r) as [v|] eqn:Hv.
  - by apply encoder_get_elem.
  - by apply encoder_get_None in Hv.
Qed.

Lemma code_nonempty r : r ∈ enc.*1 -> (0 < length (code enc r))%nat.
Proof.
  intros Hr. apply code_elem_of in Hr.
  rewrite Forall_forall in enc_nonempty. apply enc_nonempty in Hr.
  simpl in Hr. destruct (code enc r); [done|simpl; lia].
Qed.

Lemma stream_cons r rest : stream enc (r :: rest) = code enc r ++ stream enc rest.
Proof. done. Qed.

(** A buffer that is a proper prefix of a codeword is no codeword. *)
Lemma decoder_miss r bits c' :
  r ∈ enc.*1 -> code enc r = bits ++ c' -> c' <> [] -> decoder !! bits = None.
Proof.
  intros Hr Hc Hc'. destruct (decoder !! bits) as [k|] eqn:Hk; [|done].
  exfalso. apply dec_only in Hk. apply code_elem_of in Hr.
  destruct (decide (k = r)) as [->|Hne].
  - apply (elem_encoder_get enc) in Hk, Hr; [|done..].
    rewrite Hk in Hr. injection Hr as Hr. rewrite Hc in Hr.
    apply Hc'. rewrite <- (app_nil_r bits) in Hr at 1.
    by apply app_inv_head in Hr.
  - apply (enc_prefix k bits r (code enc r)); [done..|].
    rewrite Hc. by apply prefix_app_r.
Qed.

(** The [for bit in byte] loop: either the last symbol is completed
    inside the byte, or the byte is used up in the middle of a
    codeword. *)
Lemma unpack_bits_spec byte bits r rest out tail pad :
  Forall (fun c => c ∈ enc.*1) (r :: rest) ->
  bits ++ byte ++ tail = stream enc (r :: rest) ++ pad ->
  (length bits < length (code enc r))%nat ->
  (exists used unused,
      byte = used ++ unused /\
      bits ++ used = stream enc (r :: rest) /\
      unpack_bits byte bits (Z.of_nat (length (r :: rest))) decoder val_lens out
      = ([], 0, out ++ r :: rest))
  \/ (exists seen r' rest' bits',
         r :: rest = seen ++ r' :: rest' /\
         bits' ++ tail = stream enc (r' :: rest') ++ pad /\
         (length bits' < length (code enc r'))%nat /\
         unpack_bits byte bits (Z.of_nat (length (r :: rest))) decoder val_lens out
         = (bits', Z.of_nat (length (r' :: rest')), out ++ seen)).
Proof.
  revert bits r rest out.
  induction byte as [|bit byte IH]; intros bits r rest out Hkeys Heq Hlen.
  { right. exists [], r, rest, bits. simpl in *.
    split_and!; [done..|]. by rewrite app_nil_r. }
  pose proof Hkeys as [Hr Hrest]%Forall_cons.
  rewrite stream_cons, <- app_assoc in Heq.
  rewrite <- app_comm_cons in Heq.
  destruct (app_split_lt _ _ _ _ _ Heq Hlen) as (c' & Hc & Htail).
  cbn [unpack_bits].
  destruct c' as [|x c'].
  - (* the buffer is now the codeword of [r] *)
    assert (bits ++ [bit] = code enc r) as Hhit by done.
    rewrite Hhit. apply code_elem_of in Hr.
    rewrite decide_True by (by eapply lens_hit).
    rewrite (dec_hit _ _ Hr).
    destruct rest as [|r' rest].
    + left. exists [bit], byte. split_and!; [done| |done].
      rewrite stream_cons. unfold stream. simpl. by rewrite app_nil_r.
    + replace (Z.of_nat (length (r :: r' :: rest)) - 1 =? 0) with false
        by (symmetry; apply Z.eqb_neq; simpl; lia).
      replace (Z.of_nat (length (r :: r' :: rest)) - 1)
        with (Z.of_nat (length (r' :: rest))) by (simpl; lia).
      pose proof Hrest as [Hr' _]%Forall_cons.
      destruct (IH [] r' rest (out ++ [r]) Hrest)
        as [(used & unused & Hbyte & Hused & Hrun)
           |(seen & r2 & rest2 & bits' & Hsplit & Hb & Hl & Hrun)];
        [done|simpl; by apply code_nonempty| |].
      * left. exists (bit :: used), unused. split_and!.
        -- by rewrite Hbyte.
        -- rewrite stream_cons, <- Hhit, <- Hused. by rewrite <- app_assoc.
        -- rewrite Hrun. by rewrite <- app_assoc.
      * right. exists (r :: seen), r2, rest2, bits'. split_and!.
        -- by rewrite Hsplit.
        -- done.
        -- done.
        -- rewrite Hrun. by rewrite <- app_assoc.
  - (* the buffer is a proper prefix of the codeword of [r] *)
    assert (decoder !! (bits ++ [bit]) = None) as Hmiss.
    { apply (decoder_miss r _ (x :: c')); [done| |done].
      by rewrite Hc, <- app_assoc. }
    rewrite Hmiss.
    assert (unpack_bits (bit :: byte) bits (Z.of_nat (length (r :: rest)))
              decoder val_lens out
            = unpack_bits byte (bits ++ [bit]) (Z.of_nat (length (r :: rest)))
                decoder val_lens out) as Hstep.
    { cbn [unpack_bits]. rewrite Hmiss. by case_decide. }
    destruct (IH (bits ++ [bit]) r rest out Hkeys)
      as [(used & unused & Hbyte & Hused & Hrun)
         |(seen & r2 & rest2 & bits' & Hsplit & Hb & Hl & Hrun)].
    + rewrite stream_cons, Hc, Htail, <- !app_assoc. done.
    + rewrite Hc, !length_app. simpl. lia.
    + left. exists (bit :: used), unused. split_and!.
      * by rewrite Hbyte.
      * rewrite <- Hused. by rewrite <- app_assoc.
      * rewrite <- Hrun. by case_decide.
    + right. exists seen, r2, rest2, bits'. split_and!; [done..|].
      rewrite <- Hrun. by case_decide.
Qed.
(** The [while byte] loop on a payload that holds the codewords of the
    symbols still expected, followed by less than a byte of padding: it
    writes exactly these symbols. *)
Lemma unpack_bytes_spec bs bits r rest out pad :
  Forall is_byte bs ->
  Forall (fun c => c ∈ enc.*1) (r :: rest) ->
  bits ++ expand bs = stream enc (r :: rest) ++ pad ->
  (length pad < 8)%nat ->
  (length bits < length (code enc r))%nat ->
  unpack_bytes bs bits (Z.of_nat (length (r :: rest))) decoder val_lens out
  = out ++ r :: rest.
Proof.
  intros Hbs. revert bits r rest out.
  induction Hbs as [|b bs Hb Hbs IH]; intros bits r rest out Hkeys Heq Hpad Hlen.
  - exfalso. change (expand []) with (@nil bool) in Heq.
    rewrite app_nil_r in Heq.
    rewrite Heq, stream_cons, !length_app in Hlen. lia.
  - cbn [unpack_bytes]. rewrite expand_cons in Heq.
    destruct (unpack_bits_spec (rjust BYTE_LENGTH (bin b)) bits r rest out
                (expand bs) pad Hkeys Heq Hlen)
      as [(used & unused & Hbyte & Hused & Hrun)
         |(seen & r2 & rest2 & bits' & Hsplit & Hb' & Hl & Hrun)].
    + rewrite Hrun.
      assert (bs = []) as ->; [|done].
      rewrite Hbyte, <- Hused, <- !app_assoc in Heq.
      do 2 apply app_inv_head in Heq. apply (f_equal length) in Heq.
      rewrite length_app, expand_length in Heq by done.
      destruct bs; [done|simpl in Heq; lia].
    + rewrite Hrun, Hsplit.
      rewrite (IH bits' r2 rest2 (out ++ seen)); [by rewrite <- app_assoc| |done..].
      rewrite Hsplit in Hkeys. by apply Forall_app in Hkeys as [_ ?].
Qed.

(** [unpack_data] on the payload of [input]. *)
Lemma unpack_data_spec bs input (npad : nat) :
  Forall is_byte bs ->
  Forall (fun c => c ∈ enc.*1) input ->
  expand bs = stream enc input ++ replicate npad false ->
  (npad < 8)%nat ->
  (stream enc input = [] -> bs = []) ->
  unpack_data bs (Z.of_nat (length input)) decoder val_lens = input.
Proof.
  intros Hbs Hkeys Heq Hpad Hempty. unfold unpack_data.
  destruct input as [|r rest].
  - rewrite Hempty by done. done.
  - rewrite (unpack_bytes_spec bs [] r rest [] (replicate npad false)); try done.
    + by rewrite length_replicate.
    + simpl. apply code_nonempty. by apply Forall_cons in Hkeys as [? _].
Qed.
End unpack.

(** * Packing and unpacking with a given code table *)

Lemma prefix_code_nodup_values (enc : encoder) :
  NoDup enc.*1 -> prefix_code enc -> NoDup enc.*2.
Proof.
  intros Hnd Hpc. apply NoDup_fmap_2_strong; [|by apply NoDup_fmap_1 in Hnd].
  intros [k v] [k' v'] Hk Hk' Hv. simpl in Hv. subst v'.
  destruct (decide (k = k')) as [->|Hne]; [done|].
  by destruct (Hpc k v k' v Hk Hk' Hne).
Qed.

Lemma has_code_elem_of (enc : encoder) (input : list symbol) :
  Forall (fun c => is_Some (encoder_get enc c)) input
  <-> Forall (fun c => c ∈ enc.*1) input.
Proof.
  apply Forall_iff. intros c. rewrite <- not_eq_None_Some, encoder_get_None.
  split; [apply dec_stable|auto].
Qed.

Lemma storable_nonempty (enc : encoder) :
  Forall storable enc -> Forall (fun e => e.2 <> []) enc.
Proof. intros H. eapply Forall_impl; [exact H|]. by intros e (_ & ? & _). Qed.


(** * [pack] *)


(** What a finished run of [encode] on the frequencies of an input tells. *)
Lemma encode_frequency_Done (input : list symbol) (fuel : nat) (enc : encoder) :
  encode fuel (frequency input).2 = Done enc ->
  input <> [] /\
  ((distinct input = 1)%nat -> enc = []) /\
  ((2 <= distinct input)%nat ->
   enc.*1 = (frequency input).2.*1 /\ prefix_code enc).
Proof.
  intros Hrun. set (fd := (frequency input).2) in *.
  pose proof (frequency_length input) as Hlen. fold fd in Hlen.
  split_and!.
  - intros ->. by rewrite encode_empty in Hrun.
  - intros H1. rewrite <- Hlen in H1.
    destruct fd as [|x [|??]]; try done.
    apply (encode_loop_mono _ (Nat.max fuel 1)) in Hrun; [|lia].
    fold (encode (Nat.max fuel 1) [x]) in Hrun.
    rewrite encode_single in Hrun by lia. by injection Hrun as <-.
  - intros H2. rewrite <- Hlen in H2.
    destruct (encode_total fd (Nat.max fuel (2 * length fd - 1)))
      as (enc' & Hrun' & Hkeys & Hpc);
      [apply frequency_nodup|apply frequency_pos|apply frequency_sorted|done|lia|].
    apply (encode_loop_mono _ (Nat.max fuel (2 * length fd - 1))) in Hrun; [|lia].
    unfold encode in Hrun'. rewrite Hrun in Hrun'. by injection Hrun' as <-.
Qed.


Lemma pack_unfold (fuel : nat) (input : list symbol) :
  pack fuel input
  = match encode fuel (frequency input).2 with
    | Done enc =>
        let '(r, out) :=
          (pack_metadata enc (Z.of_nat (length input)) (frequency input).2 ;;
           pack_data input enc) [] in
        (r, Some out)
    | Raise e => (Raise e, None)
    | Timeout => (Timeout, None)
    end.
Proof. done. Qed.


(** * The properties of the specification *)

(** Closed side conditions on concrete lists. *)
Ltac closed_decide := apply (bool_decide_unpack _); vm_compute; exact I.

(** ** Code Builder *)






(** ** The scenarios *)

Lemma encode_abcd (fuel : nat) :
  (7 <= fuel)%nat -> encode fuel (frequency abcd).2 = Done abcd_table.
Proof.
  intros Hfuel. apply (encode_loop_mono 7); [|done]. vm_compute. reflexivity.
Qed.

(** C3 as stated fails: the symbols of ["abcd"] do not all get two bits.
    The running sum is compared with the half before the current
    probability is added, so that the first cut is after the third
    symbol. *)
Lemma abcd_not_two_bits :
  encode 7 (frequency abcd).2 = Done abcd_table /\
  ~ Forall (fun e => length e.2 = 2%nat) abcd_table.
Proof.
  split; [by apply encode_abcd|].
  intros [H _]%Forall_cons. simpl in H. discriminate H.
Qed.

(** C3, as the code has it.  For ["abcd"] (four symbols, once each) the
    Code Builder gives the codewords 000, 001, 01 and 1, of 3, 3, 2 and 1
    bits, [pack] writes a header of 14 bytes and a payload of 2 bytes, and
    [unpack] reads ["abcd"] back from that file. *)
Theorem abcd_codes_roundtrip (fuel : nat) :
  (7 <= fuel)%nat ->
  encode fuel (frequency abcd).2 = Done abcd_table /\
  (fun e => length e.2) <$> abcd_table = [3; 3; 2; 1]%nat /\
  pack fuel abcd = (Done tt, Some abcd_file) /\
  unpack abcd_file = abcd.
Proof.
  intros Hfuel. pose proof (encode_abcd fuel Hfuel) as Henc.
  split_and!; [done|done| |by vm_compute].
  rewrite pack_unfold, Henc. vm_compute. reflexivity.
Qed.

Lemma abcd_codes_roundtrip_witness :
  (7 <= 7)%nat /\
  encode 7 (frequency abcd).2 = Done abcd_table /\
  (fun e => length e.2) <$> abcd_table = [3; 3; 2; 1]%nat /\
  pack 7 abcd = (Done tt, Some abcd_file) /\
  unpack abcd_file = abcd.
Proof.
  assert (7 <= 7)%nat as H by lia.
  split; [exact H|]. exact (abcd_codes_roundtrip 7 H).
Defined.

(** C4: on the empty input [encode] starts from the range [(0, -1)], which
    is neither a single symbol nor a pair; its two empty loops leave
    [partition_index] at -1 and push [(-1, -1)] and [(0, -2)], and the
    range [(0, -2)] then comes back at every turn.  [pack] never gets to
    open the output file.  A file with [N = 0] and [T = 0], had it
    been written, is unpacked to the empty output. *)
Theorem pack_empty_never_returns :
  (forall fuel, pack fuel [] = (Timeout, None)) /\ unpack [0; 0] = [].
Proof.
  split; [|by vm_compute].
  intros fuel. rewrite pack_unfold.
  change (frequency []).2 with (@nil (symbol * Q)). by rewrite encode_empty.
Qed.

(** ** The compressed file *)





(** ** The limits of the one-byte counts *)




(** ** The header codec *)

(** C8.  For a code table whose symbols are byte values and whose
    codewords have 1 to 8 bits (with the count byte, the length of
    [frequency_data], equal to the number of entries, and both counts
    below 256), [unpack_metadata] reads back what [pack_metadata] wrote: every codeword is its value byte in binary,
    padded with zeros on the left to its length byte; the decoder maps
    every codeword back to its symbol (it holds exactly the reversed pairs
    of the table when the codewords are distinct); the set of lengths
    holds the lengths of the codewords; and the total count comes back
    unchanged. *)
Theorem metadata_roundtrip (enc : encoder) (fd : frequency_data) (t : Z)
    (rest : list Z) :
  Forall (fun e => 0 <= e.1 < 256 /\ (1 <= length e.2 <= 8)%nat) enc ->
  length fd = length enc ->
  (length enc < 256)%nat ->
  0 <= t < 256 ->
  pack_metadata enc t fd []
  = (Done tt, header_bytes enc (Z.of_nat (length enc)) t) /\
  Forall (fun e => rjust (length e.2) (bin (bits_value e.2)) = e.2) enc /\
  unpack_metadata (header_bytes enc (Z.of_nat (length enc)) t ++ rest)
  = (t, decoder_from ∅ enc, lens_from ∅ enc, rest) /\
  (NoDup enc.*2 ->
   forall k v, decoder_from ∅ enc !! v = Some k <-> (k, v) ∈ enc) /\
  (forall n, n ∈ lens_from ∅ enc
             <-> exists e, e ∈ enc /\ n = Z.of_nat (length e.2)).
Proof.
  intros Henc Hfd Hn Ht.
  assert (Forall storable enc) as Hst.
  { eapply Forall_impl; [exact Henc|]. intros [k v] [Hk Hv]. cbn [fst snd] in *.
    pose proof (bits_value_range v) as Hr.
    assert (2 ^ Z.of_nat (length v) <= 2 ^ 8) by (apply Z.pow_le_mono_r; lia).
    unfold storable. cbn [fst snd]. split_and!; try lia.
    intros ->. simpl in Hv. lia. }
  split_and!.
  - rewrite pack_metadata_ok by (done || lia). by rewrite Hfd.
  - eapply Forall_impl; [exact Hst|]. intros e (_ & ? & _).
    by apply rjust_bin_value.
  - by apply unpack_metadata_header.
  - intros Hnd k v. rewrite decoder_from_lookup by done.
    rewrite lookup_empty. split; [intros [?|[_ ?]]; done|by left].
  - intros n. rewrite lens_from_elem_of. split; [intros [?|?]; [set_solver|done]|by right].
Qed.

Lemma metadata_roundtrip_witness :
  Forall (fun e => 0 <= e.1 < 256 /\ (1 <= length e.2 <= 8)%nat) abcd_table /\
  length (frequency abcd).2 = length abcd_table /\
  (length abcd_table < 256)%nat /\
  0 <= 4 < 256 /\
  pack_metadata abcd_table 4 (frequency abcd).2 []
  = (Done tt, header_bytes abcd_table (Z.of_nat (length abcd_table)) 4) /\
  Forall (fun e => rjust (length e.2) (bin (bits_value e.2)) = e.2) abcd_table /\
  unpack_metadata
    (header_bytes abcd_table (Z.of_nat (length abcd_table)) 4 ++ [5; 128])
  = (4, decoder_from ∅ abcd_table, lens_from ∅ abcd_table, [5; 128]) /\
  (NoDup abcd_table.*2 ->
   forall k v, decoder_from ∅ abcd_table !! v = Some k <-> (k, v) ∈ abcd_table) /\
  (forall n, n ∈ lens_from ∅ abcd_table
             <-> exists e, e ∈ abcd_table /\ n = Z.of_nat (length e.2)).
Proof.
  assert (Forall (fun e => 0 <= e.1 < 256 /\ (1 <= length e.2 <= 8)%nat)
            abcd_table) as H1 by (repeat constructor; simpl; lia).
  assert (length (frequency abcd).2 = length abcd_table) as H2 by reflexivity.
  assert (length abcd_table < 256)%nat as H3 by (simpl; lia).
  assert (0 <= 4 < 256) as H4 by lia.
  split; [exact H1|]. split; [exact H2|]. split; [exact H3|]. split; [exact H4|].
  exact (metadata_roundtrip abcd_table (frequency abcd).2 4 [5; 128] H1 H2 H3 H4).
Defined.

(** ** Unpacking *)

Lemma abcd_table_prefix_code : prefix_code abcd_table.
Proof.
  destruct (encode_frequency_Done abcd 7 abcd_table) as (_ & _ & H);
    [by apply encode_abcd|].
  apply H. apply Nat.leb_le. vm_compute. reflexivity.
Qed.

(** C9.  A well-formed compressed file: the header of a prefix code whose
    entries fit their bytes, with the count [T] of the symbols [xs], and a
    payload that holds the codewords of [xs] followed by less than a byte
    of zero padding.  [unpack] writes exactly the [T] symbols of [xs]: the
    padding bits are not decoded. *)
Theorem unpack_stops_at_count (enc : encoder) (xs : list symbol)
    (payload : list Z) (npad : nat) :
  NoDup enc.*1 ->
  prefix_code enc ->
  Forall storable enc ->
  (length enc < 256)%nat ->
  (length xs < 256)%nat ->
  Forall (fun c => c ∈ enc.*1) xs ->
  Forall is_byte payload ->
  expand payload = stream enc xs ++ replicate npad false ->
  (npad < 8)%nat ->
  let file :=
    header_bytes enc (Z.of_nat (length enc)) (Z.of_nat (length xs)) ++ payload in
  unpack file = xs /\ length (unpack file) = length xs.
Proof.
  intros Hnd Hpc Hst Hn Ht Hkeys Hbytes Hbits Hpad file.
  assert (unpack file = xs) as Hback; [|by rewrite Hback].
  unfold file, unpack. rewrite unpack_metadata_header by done.
  pose proof (prefix_code_nodup_values enc Hnd Hpc) as Hvals.
  apply (unpack_data_spec enc) with (npad := npad); try done.
  - by apply storable_nonempty.
  - intros k v Hkv. apply decoder_from_lookup; [done|]. by left.
  - intros k w Hw. apply decoder_from_lookup in Hw as [?|[_ Hw]]; [done| |done].
    by rewrite lookup_empty in Hw.
  - intros k v Hkv. apply lens_from_elem_of. right. by exists (k, v).
  - intros Hs. rewrite Hs in Hbits. apply (f_equal length) in Hbits.
    rewrite expand_length, length_app, length_replicate in Hbits by done.
    destruct payload; [done|simpl in Hbits; lia].
Qed.

Lemma unpack_stops_at_count_witness :
  NoDup abcd_table.*1 /\
  prefix_code abcd_table /\
  Forall storable abcd_table /\
  (length abcd_table < 256)%nat /\
  (length abcd < 256)%nat /\
  Forall (fun c => c ∈ abcd_table.*1) abcd /\
  Forall is_byte [5; 128] /\
  expand [5; 128] = stream abcd_table abcd ++ replicate 7 false /\
  (7 < 8)%nat /\
  let file :=
    header_bytes abcd_table (Z.of_nat (length abcd_table))
      (Z.of_nat (length abcd)) ++ [5; 128] in
  unpack file = abcd /\ length (unpack file) = length abcd.
Proof.
  assert (NoDup abcd_table.*1) as H1 by closed_decide.
  pose proof abcd_table_prefix_code as H2.
  assert (Forall storable abcd_table) as H3.
  { repeat constructor; simpl; try lia; try discriminate; vm_compute; reflexivity. }
  assert (length abcd_table < 256)%nat as H4 by (simpl; lia).
  assert (length abcd < 256)%nat as H5 by (simpl; lia).
  assert (Forall (fun c => c ∈ abcd_table.*1) abcd) as H6 by closed_decide.
  assert (Forall is_byte [5; 128]) as H7 by (repeat constructor; simpl; lia).
  assert (expand [5; 128] = stream abcd_table abcd ++ replicate 7 false) as H8
      by (vm_compute; reflexivity).
  assert (7 < 8)%nat as H9 by lia.
  split; [exact H1|]. split; [exact H2|]. split; [exact H3|].
  split; [exact H4|]. split; [exact H5|]. split; [exact H6|].
  split; [exact H7|]. split; [exact H8|]. split; [exact H9|].
  exact (unpack_stops_at_count abcd_table abcd [5; 128] 7
           H1 H2 H3 H4 H5 H6 H7 H8 H9).
Defined.

(** ** Round trip *)





(** * More on [frequency] *)

Section counting.
Implicit Types (counter : list (symbol * Z)) (input : list symbol) (k : symbol).











Lemma insert_by_count_filter x counter (c : Z) :
  filter (fun e => e.2 = c) (insert_by_count x counter)
  = filter (fun e => e.2 = c) (x :: counter).
Proof.
  induction counter as [|y counter IH]; [done|].
  cbn [insert_by_count]. destruct (Z.ltb_spec x.2 y.2) as [Hlt|?]; [|done].
  rewrite (filter_cons _ y), IH, !filter_cons.
  repeat case_decide; try done; lia.
Qed.

Lemma most_common_filter counter (c : Z) :
  filter (fun e => e.2 = c) (most_common counter)
  = filter (fun e => e.2 = c) counter.
Proof.
  induction counter as [|x counter IH]; [done|].
  cbn [most_common foldr]. fold (most_common counter).
  rewrite insert_by_count_filter, !filter_cons, IH. done.
Qed.

Lemma count_chars_keys input counter :
  (fold_left counter_update input counter).*1
  = foldl (fun acc c => if decide (c ∈ acc) then acc else acc ++ [c])
          counter.*1 input.
Proof.
  revert counter. induction input as [|c input IH]; intros counter; [done|].
  cbn [fold_left foldl]. by rewrite IH, keys_counter_update.
Qed.
End counting.


(** X1.  The list that [frequency] returns is sorted by non-increasing
    probability, and every probability in it is positive. *)
Theorem frequency_monotone (input : list symbol) :
  StronglySorted desc (frequency input).2 /\
  Forall (fun e => 0 < e.2)%Q (frequency input).2.
Proof. split; [apply frequency_sorted|apply frequency_pos]. Qed.

(** X2.  [frequency] returns the number of symbols read, and one entry for
    each distinct symbol of the input and for nothing else. *)
Theorem frequency_symbols (input : list symbol) :
  (frequency input).1 = Z.of_nat (length input) /\
  NoDup (frequency input).2.*1 /\
  (forall k, k ∈ (frequency input).2.*1 <-> k ∈ input) /\
  length (frequency input).2 = distinct input.
Proof.
  split_and!; [done|apply frequency_nodup| |apply frequency_length].
  intros k. apply frequency_elem_of.
Qed.




(** X5.  Ties are broken by the order of first occurrence: the keys of the
    counter are the distinct symbols in the order in which they are first
    seen, [most_common] keeps the entries of equal count in the order
    of the counter, and [frequency] keeps the order of [most_common]. *)
Theorem frequency_ties_first_seen (input : list symbol) (c : Z) :
  (count_chars input).*1 = first_seen input /\
  filter (fun e => e.2 = c) (most_common (count_chars input))
  = filter (fun e => e.2 = c) (count_chars input) /\
  (frequency input).2.*1 = (most_common (count_chars input)).*1.
Proof.
  split_and!;
    [apply (count_chars_keys input [])|apply most_common_filter
    |apply frequency_keys].
Qed.

(** * More on [encode] *)








(** X6.  A list of two entries gives the first symbol the codeword 0 and
    the second the codeword 1, whatever the two probabilities are; when
    both entries carry the same symbol, it gets both bits. *)
Theorem encode_two_entries (x y : symbol * Q) (fuel : nat) :
  encode (S fuel) [x; y]
  = Done (if decide (x.1 = y.1) then [(x.1, [false; true])]
          else [(x.1, [false]); (y.1, [true])]).
Proof.
  assert (encode_step [x; y] 0 1 [] []
          = Done ([], if x.1 =? y.1 then [(x.1, [false; true])]
                      else [(x.1, [false]); (y.1, [true])])) as Hstep
      by reflexivity.
  unfold encode. cbn [encode_loop length].
  change (Z.of_nat 2 - 1) with 1. rewrite Hstep. cbn [obind fst snd].
  destruct (Z.eqb_spec x.1 y.1) as [Heq|Hne].
  - rewrite decide_True by done. by destruct fuel.
  - rewrite decide_False by done. by destruct fuel.
Qed.










(** * More on [pack_metadata] and [pack_data] *)

(** X10.  [pack_metadata] succeeds exactly when the number of entries of
    [frequency_data] and the input size are byte values and every entry
    of the table can be stored: its symbol, the length of its codeword
    and the value of its codeword are byte values and the codeword is not
    empty.  It then appends the two counts and three bytes for every
    entry to the file. *)
Theorem pack_metadata_succeeds_iff (enc : encoder) (t : Z)
    (fd : frequency_data) (out out' : list Z) :
  pack_metadata enc t fd out = (Done tt, out') <->
  Z.of_nat (length fd) < 256 /\ 0 <= t < 256 /\ Forall storable enc /\
  out' = out ++ header_bytes enc (Z.of_nat (length fd)) t.
Proof.
  split.
  - apply pack_metadata_inv.
  - intros (Hn & Ht & Hst & ->). by apply pack_metadata_ok.
Qed.

(** X11.  Whenever [pack_metadata] succeeds for a table with as many
    entries as [frequency_data], [unpack_metadata] reads the input size
    and the table back from what was written and leaves the bytes that
    follow: also codewords of more than eight bits come back, with their
    leading zeros. *)
Theorem metadata_written_read_back (enc : encoder) (t : Z)
    (fd : frequency_data) (header rest : list Z) :
  pack_metadata enc t fd [] = (Done tt, header) ->
  length fd = length enc ->
  exists decoder val_lens,
    unpack_metadata (header ++ rest) = (t, decoder, val_lens, rest) /\
    (NoDup enc.*2 -> forall k v, decoder !! v = Some k <-> (k, v) ∈ enc) /\
    (forall n, n ∈ val_lens
               <-> exists e, e ∈ enc /\ n = Z.of_nat (length e.2)).
Proof.
  intros Hrun Hlen.
  apply pack_metadata_inv in Hrun as (Hn & Ht & Hst & ->).
  exists (decoder_from ∅ enc), (lens_from ∅ enc). split_and!.
  - rewrite app_nil_l. apply unpack_metadata_header; [done|]. by rewrite Hlen.
  - intros Hnd k v. rewrite decoder_from_lookup by done.
    rewrite lookup_empty. split; [intros [?|[_ ?]]; done|by left].
  - intros n. rewrite lens_from_elem_of.
    split; [intros [?|?]; [set_solver|done]|by right].
Qed.

Lemma metadata_written_read_back_witness :
  pack_metadata nine_bit_table 2 fd_halves []
  = (Done tt, [2; 2; 97; 9; 1; 98; 1; 1]) /\
  length fd_halves = length nine_bit_table /\
  exists decoder val_lens,
    unpack_metadata ([2; 2; 97; 9; 1; 98; 1; 1] ++ [128])
    = (2, decoder, val_lens, [128]) /\
    (NoDup nine_bit_table.*2 ->
     forall k v, decoder !! v = Some k <-> (k, v) ∈ nine_bit_table) /\
    (forall n, n ∈ val_lens
               <-> exists e, e ∈ nine_bit_table /\ n = Z.of_nat (length e.2)).
Proof.
  assert (pack_metadata nine_bit_table 2 fd_halves []
          = (Done tt, [2; 2; 97; 9; 1; 98; 1; 1])) as H1
      by (vm_compute; reflexivity).
  assert (length fd_halves = length nine_bit_table) as H2 by reflexivity.
  split; [exact H1|]. split; [exact H2|].
  exact (metadata_written_read_back nine_bit_table 2 fd_halves
           [2; 2; 97; 9; 1; 98; 1; 1] [128] H1 H2).
Defined.

Lemma pack_chars_app (pre rest : list symbol) (enc : encoder)
    (bits : list bool) (out : list Z) :
  pack_chars (pre ++ rest) enc bits out
  = (do! b := pack_chars pre enc bits in pack_chars rest enc b) out.
Proof.
  revert bits out. induction pre as [|c pre IH]; intros bits out; [done|].
  cbn [app pack_chars]. destruct (encoder_get enc c) as [v|]; [|reflexivity].
  unfold wbind.
  destruct (flush_loop (length (bits ++ v)) (bits ++ v) out)
    as [[b|e|] out1]; [|reflexivity..].
  apply IH.
Qed.

(** X12.  When every symbol of the input has a codeword in the table,
    [pack_data] appends the payload to the file: its bytes, each written
    as eight bits with the most significant bit first, are the codewords
    of the input in order, followed by fewer than eight 0 bits that fill
    the last byte. *)
Theorem pack_data_payload (input : list symbol) (enc : encoder)
    (out : list Z) :
  Forall (fun c => c ∈ enc.*1) input ->
  exists bs npad,
    pack_data input enc out = (Done tt, out ++ bs) /\
    expand bs = stream enc input ++ replicate npad false /\
    (npad < 8)%nat /\
    Forall is_byte bs /\
    Z.of_nat (length bs) = (Z.of_nat (length (stream enc input)) + 7) / 8.
Proof.
  intros Hkeys. apply has_code_elem_of in Hkeys.
  destruct (pack_data_spec input enc out Hkeys)
    as (bs & npad & Hrun & Hbits & Hpad & Hbs & _).
  exists bs, npad. split_and!; [done..|].
  apply (f_equal length) in Hbits.
  rewrite expand_length, length_app, length_replicate in Hbits by done.
  apply (Z.div_unique _ _ _ (7 - Z.of_nat npad)); lia.
Qed.

Lemma pack_data_payload_witness :
  Forall (fun c => c ∈ abcd_table.*1) abcd /\
  exists bs npad,
    pack_data abcd abcd_table [] = (Done tt, [] ++ bs) /\
    expand bs = stream abcd_table abcd ++ replicate npad false /\
    (npad < 8)%nat /\
    Forall is_byte bs /\
    Z.of_nat (length bs) = (Z.of_nat (length (stream abcd_table abcd)) + 7) / 8.
Proof.
  assert (Forall (fun c => c ∈ abcd_table.*1) abcd) as H1 by closed_decide.
  split; [exact H1|].
  exact (pack_data_payload abcd abcd_table [] H1).
Defined.

(** X13.  [pack_data] succeeds only if every symbol of the input has a
    codeword in the table.  At the first symbol that has none it raises
    [TypeError]; the file then holds the whole bytes of the codewords
    before that symbol, and at most eight of their bits are lost. *)
Theorem pack_data_missing_symbol (pre post : list symbol) (c : symbol)
    (enc : encoder) (out : list Z) :
  Forall (fun c => c ∈ enc.*1) pre ->
  c ∉ enc.*1 ->
  (forall out', pack_data (pre ++ c :: post) enc out <> (Done tt, out')) /\
  exists bs bits,
    pack_data (pre ++ c :: post) enc out = (Raise TypeError, out ++ bs) /\
    expand bs ++ bits = stream enc pre /\
    (length bits <= 8)%nat.
Proof.
  intros Hkeys Hc. apply has_code_elem_of in Hkeys.
  destruct (pack_chars_spec pre enc [] out Hkeys)
    as (bs & bits & Hrun & Hbits & Hlen & _ & _); [simpl; lia|].
  assert (pack_data (pre ++ c :: post) enc out = (Raise TypeError, out ++ bs))
    as Hfail.
  { unfold pack_data. unfold wbind at 1. rewrite pack_chars_app.
    unfold wbind at 1. rewrite Hrun. cbn [pack_chars].
    apply encoder_get_None in Hc. by rewrite Hc. }
  split.
  - intros out'. by rewrite Hfail.
  - by exists bs, bits.
Qed.

Lemma pack_data_missing_symbol_witness :
  Forall (fun c => c ∈ abcd_table.*1) [97; 98; 99] /\
  101 ∉ abcd_table.*1 /\
  (forall out',
      pack_data ([97; 98; 99] ++ 101 :: [100]) abcd_table [] <> (Done tt, out')) /\
  exists bs bits,
    pack_data ([97; 98; 99] ++ 101 :: [100]) abcd_table []
    = (Raise TypeError, [] ++ bs) /\
    expand bs ++ bits = stream abcd_table [97; 98; 99] /\
    (length bits <= 8)%nat.
Proof.
  assert (Forall (fun c => c ∈ abcd_table.*1) [97; 98; 99]) as H1
      by closed_decide.
  assert (101 ∉ abcd_table.*1) as H2 by closed_decide.
  split; [exact H1|]. split; [exact H2|].
  exact (pack_data_missing_symbol [97; 98; 99] [100] 101 abcd_table [] H1 H2).
Defined.

(** * More on [pack] *)


(** X14.  An input that consists of one symbol, repeated at most 255
    times, cannot be packed: its table is empty, and after the two count
    bytes are written [pack_data] raises [TypeError] at the first
    symbol. *)
Theorem pack_single_symbol (fuel : nat) (input : list symbol) :
  distinct input = 1%nat ->
  (length input <= 255)%nat ->
  (1 <= fuel)%nat ->
  pack fuel input = (Raise TypeError, Some [1; Z.of_nat (length input)]).
Proof.
  intros Hdist Hlen Hfuel.
  rewrite pack_unfold.
  pose proof (frequency_length input) as Hfd. rewrite Hdist in Hfd.
  destruct (frequency input).2 as [|x [|y fd]] eqn:Hfreq; [done| |done].
  rewrite encode_single by done.
  destruct input as [|c input]; [done|].
  unfold wbind at 1.
  rewrite (pack_metadata_ok [] _ [x] []) by (simpl in *; try lia; constructor).
  reflexivity.
Qed.

Lemma pack_single_symbol_witness :
  distinct one_symbol = 1%nat /\
  (length one_symbol <= 255)%nat /\
  (1 <= 1)%nat /\
  pack 1 one_symbol = (Raise TypeError, Some [1; Z.of_nat (length one_symbol)]).
Proof.
  assert (distinct one_symbol = 1%nat) as H1 by reflexivity.
  assert (length one_symbol <= 255)%nat as H2 by (simpl; lia).
  assert (1 <= 1)%nat as H3 by lia.
  split; [exact H1|]. split; [exact H2|]. split; [exact H3|].
  exact (pack_single_symbol 1 one_symbol H1 H2 H3).
Defined.




(** * More on [unpack_metadata] *)

Lemma read1_zeros (f : list Z) (k : nat) :
  exists b' k',
    read1 (f ++ replicate k 0) = (b', (read1 f).2 ++ replicate k' 0) /\
    from_byte b' = from_byte (read1 f).1.
Proof.
  destruct f as [|b f].
  - destruct k as [|k]; [by exists None, 0%nat|by exists (Some 0), k].
  - by exists (Some b), k.
Qed.

Lemma read_entries_zeros (n : nat) (f : list Z) (k : nat)
    (d : gmap (list bool) symbol) (vl : gset Z) :
  (read_entries n (f ++ replicate k 0) d vl).1 = (read_entries n f d vl).1.
Proof.
  revert f k d vl. induction n as [|n IH]; intros f k d vl; [done|].
  cbn [read_entries].
  destruct (read1_zeros f k) as (c1 & k1 & -> & ->).
  destruct (read1 f) as [b1 f1]. cbn [fst snd].
  destruct (read1_zeros f1 k1) as (c2 & k2 & -> & ->).
  destruct (read1 f1) as [b2 f2]. cbn [fst snd].
  destruct (read1_zeros f2 k2) as (c3 & k3 & -> & ->).
  destruct (read1 f2) as [b3 f3]. cbn [fst snd].
  apply IH.
Qed.

Lemma read1_drop (f : list Z) : (read1 f).2 = drop 1 f.
Proof. by destruct f. Qed.

Lemma read_entries_rest (n : nat) (f : list Z)
    (d : gmap (list bool) symbol) (vl : gset Z) :
  (read_entries n f d vl).2 = drop (3 * n) f.
Proof.
  revert f d vl. induction n as [|n IH]; intros f d vl; [done|].
  cbn [read_entries].
  pose proof (read1_drop f) as H1. destruct (read1 f) as [b1 f1].
  pose proof (read1_drop f1) as H2. destruct (read1 f1) as [b2 f2].
  pose proof (read1_drop f2) as H3. destruct (read1 f2) as [b3 f3].
  cbn [snd] in *. rewrite IH. subst f3 f2 f1. rewrite !drop_drop.
  f_equal. lia.
Qed.

(** X17.  [unpack_metadata] never fails on a short file: bytes that are
    missing at the end are read as 0, so that a truncated header gives
    the same input size, decoder and set of lengths as the header filled
    up with any number of 0 bytes. *)
Theorem unpack_metadata_truncated (f : list Z) (k : nat) :
  (unpack_metadata (f ++ replicate k 0)).1 = (unpack_metadata f).1.
Proof.
  unfold unpack_metadata.
  destruct (read1_zeros f k) as (c1 & k1 & -> & ->).
  destruct (read1 f) as [b1 f1]. cbn [fst snd].
  destruct (read1_zeros f1 k1) as (c2 & k2 & -> & ->).
  destruct (read1 f1) as [b2 f2]. cbn [fst snd].
  pose proof (read_entries_zeros (Z.to_nat (from_byte b1)) f2 k2 ∅ ∅) as H.
  destruct (read_entries _ (f2 ++ _) ∅ ∅) as [[d vl] rest].
  destruct (read_entries _ f2 ∅ ∅) as [[d' vl'] rest'].
  cbn [fst] in *. by injection H as -> ->.
Qed.

(** X18.  [unpack_metadata] takes [2 + 3 * N] bytes from the file, where
    [N] is the first byte (0 for an empty file), whatever these bytes
    are; the payload is what follows them. *)
Theorem unpack_metadata_consumes (f : list Z) :
  (unpack_metadata f).2 = drop (2 + 3 * Z.to_nat (from_byte (head f))) f.
Proof.
  unfold unpack_metadata.
  assert ((read1 f).1 = head f) as Hhead by (by destruct f).
  pose proof (read1_drop f) as H1. destruct (read1 f) as [b1 f1].
  pose proof (read1_drop f1) as H2. destruct (read1 f1) as [b2 f2].
  cbn [fst snd] in *. subst b1.
  pose proof (read_entries_rest (Z.to_nat (from_byte (head f))) f2 ∅ ∅) as H3.
  destruct (read_entries _ f2 ∅ ∅) as [[d vl] rest].
  cbn [snd] in *. subst rest f2 f1. by rewrite !drop_drop.
Qed.

(** * More on [unpack_data] *)

Lemma unpack_bits_out (byte bits : list bool) (c : Z)
    (d : gmap (list bool) symbol) (vl : gset Z) (out : list symbol) :
  exists new,
    (unpack_bits byte bits c d vl out).2 = out ++ new /\
    Forall (fun s => exists w, d !! w = Some s /\ Z.of_nat (length w) ∈ vl) new /\
    (length new <= length byte)%nat.
Proof.
  revert bits c out. induction byte as [|bit byte IH]; intros bits c out.
  { exists []. by rewrite app_nil_r. }
  cbn [unpack_bits].
  assert (exists new,
             (unpack_bits byte (bits ++ [bit]) c d vl out).2 = out ++ new /\
             Forall (fun s => exists w, d !! w = Some s
                                        /\ Z.of_nat (length w) ∈ vl) new /\
             (length new <= length (bit :: byte))%nat) as Hskip.
  { destruct (IH (bits ++ [bit]) c out) as (new & ? & ? & ?).
    exists new. split_and!; [done..|simpl; lia]. }
  case_decide as Hlen; [|done].
  destruct (d !! (bits ++ [bit])) as [s|] eqn:Hs; [|done].
  destruct (c - 1 =? 0).
  - exists [s]. split_and!; [done| |simpl; lia].
    apply Forall_singleton. by exists (bits ++ [bit]).
  - destruct (IH [] (c - 1) (out ++ [s])) as (new & Hrun & Hall & Hl).
    exists (s :: new). split_and!.
    + by rewrite Hrun, <- app_assoc.
    + apply Forall_cons. split; [by exists (bits ++ [bit])|done].
    + simpl. lia.
Qed.

Lemma unpack_bytes_out (f : list Z) (bits : list bool) (c : Z)
    (d : gmap (list bool) symbol) (vl : gset Z) (out : list symbol) :
  exists new,
    unpack_bytes f bits c d vl out = out ++ new /\
    Forall (fun s => exists w, d !! w = Some s /\ Z.of_nat (length w) ∈ vl) new /\
    (length new <= length (expand f))%nat.
Proof.
  revert bits c out. induction f as [|b f IH]; intros bits c out.
  { exists []. by rewrite app_nil_r. }
  cbn [unpack_bytes]. rewrite expand_cons, length_app.
  destruct (unpack_bits_out (rjust BYTE_LENGTH (bin b)) bits c d vl out)
    as (new1 & Hrun1 & Hall1 & Hl1).
  destruct (unpack_bits _ bits c d vl out) as [[bits' c'] out'].
  cbn [snd] in Hrun1. subst out'.
  destruct (IH bits' c' (out ++ new1)) as (new2 & Hrun2 & Hall2 & Hl2).
  exists (new1 ++ new2). split_and!.
  - by rewrite Hrun2, <- app_assoc.
  - by apply Forall_app.
  - rewrite length_app. lia.
Qed.

(** X19.  Whatever the payload and the count, every symbol that
    [unpack_data] writes is the decoder's value for a bit-string whose
    length is in the set of lengths, and it writes at most one symbol for
    every bit of the payload. *)
Theorem unpack_data_output (f : list Z) (input_size : Z)
    (decoder : gmap (list bool) symbol) (val_lens : gset Z) :
  Forall (fun s => exists w, decoder !! w = Some s
                             /\ Z.of_nat (length w) ∈ val_lens)
    (unpack_data f input_size decoder val_lens) /\
  (length (unpack_data f input_size decoder val_lens)
   <= length (expand f))%nat.
Proof.
  unfold unpack_data.
  destruct (unpack_bytes_out f [] input_size decoder val_lens [])
    as (new & -> & Hall & Hlen).
  done.
Qed.

Lemma unpack_bits_acc (byte bits : list bool) (c : Z)
    (d : gmap (list bool) symbol) (vl : gset Z) (out : list symbol) :
  unpack_bits byte bits c d vl out
  = ((unpack_bits byte bits c d vl []).1,
     out ++ (unpack_bits byte bits c d vl []).2).
Proof.
  assert (forall out1 out2,
             unpack_bits byte bits c d vl (out1 ++ out2)
             = ((unpack_bits byte bits c d vl out2).1,
                out1 ++ (unpack_bits byte bits c d vl out2).2)) as H.
  { revert bits c. induction byte as [|bit byte IH]; intros bits c out1 out2.
    { done. }
    cbn [unpack_bits]. case_decide; [|apply IH].
    destruct (d !! (bits ++ [bit])) as [s|]; [|apply IH].
    destruct (c - 1 =? 0); [by rewrite <- app_assoc|].
    rewrite <- app_assoc. apply IH. }
  specialize (H out []). by rewrite app_nil_r in H.
Qed.

Lemma unpack_bytes_acc (f : list Z) (bits : list bool) (c : Z)
    (d : gmap (list bool) symbol) (vl : gset Z) (out : list symbol) :
  unpack_bytes f bits c d vl out = out ++ unpack_bytes f bits c d vl [].
Proof.
  assert (forall out1 out2,
             unpack_bytes f bits c d vl (out1 ++ out2)
             = out1 ++ unpack_bytes f bits c d vl out2) as H.
  { revert bits c. induction f as [|b f IH]; intros bits c out1 out2; [done|].
    cbn [unpack_bytes].
    rewrite (unpack_bits_acc _ bits c d vl (out1 ++ out2)).
    rewrite (unpack_bits_acc _ bits c d vl out2).
    destruct (unpack_bits _ bits c d vl []) as [[bits' c'] new].
    cbn [fst snd]. rewrite <- app_assoc. apply IH. }
  specialize (H out []). by rewrite app_nil_r in H.
Qed.

Section unpack_more.
Variable enc : encoder.
Variable decoder : gmap (list bool) symbol.
Variable val_lens : gset Z.
Hypothesis enc_nodup : NoDup enc.*1.
Hypothesis enc_prefix : prefix_code enc.
Hypothesis enc_nonempty : Forall (fun e => e.2 <> []) enc.
Hypothesis dec_hit : forall k v, (k, v) ∈ enc -> decoder !! v = Some k.
Hypothesis dec_only : forall k w, decoder !! w = Some k -> (k, w) ∈ enc.
Hypothesis lens_hit :
  forall k v, (k, v) ∈ enc -> Z.of_nat (length v) ∈ val_lens.

(** The [while byte] loop on a payload that is followed by more bytes:
    once the count is used up the rest of the current byte is skipped and
    the loop goes on with the count 0. *)
Lemma unpack_bytes_more (bs more : list Z) (bits : list bool) (r : symbol)
    (rest out : list symbol) (pad : list bool) :
  Forall is_byte bs ->
  Forall (fun c => c ∈ enc.*1) (r :: rest) ->
  bits ++ expand bs = stream enc (r :: rest) ++ pad ->
  (length pad < 8)%nat ->
  (length bits < length (code enc r))%nat ->
  unpack_bytes (bs ++ more) bits (Z.of_nat (length (r :: rest)))
    decoder val_lens out
  = unpack_bytes more [] 0 decoder val_lens (out ++ r :: rest).
Proof.
  intros Hbs. revert bits r rest out.
  induction Hbs as [|b bs Hb Hbs IH]; intros bits r rest out Hkeys Heq Hpad Hlen.
  - exfalso. change (expand []) with (@nil bool) in Heq.
    rewrite app_nil_r in Heq.
    assert (stream enc (r :: rest) = code enc r ++ stream enc rest) as Hs
        by done.
    rewrite Heq, Hs, !length_app in Hlen. lia.
  - cbn [app unpack_bytes]. rewrite expand_cons in Heq.
    destruct (unpack_bits_spec enc decoder val_lens enc_nodup enc_prefix
                enc_nonempty dec_hit dec_only lens_hit
                (rjust BYTE_LENGTH (bin b)) bits r rest out
                (expand bs) pad Hkeys Heq Hlen)
      as [(used & unused & Hbyte & Hused & Hrun)
         |(seen & r2 & rest2 & bits' & Hsplit & Hb' & Hl & Hrun)].
    + rewrite Hrun.
      assert (bs = []) as ->; [|done].
      rewrite Hbyte, <- Hused, <- !app_assoc in Heq.
      do 2 apply app_inv_head in Heq. apply (f_equal length) in Heq.
      rewrite length_app, expand_length in Heq by done.
      destruct bs; [done|simpl in Heq; lia].
    + rewrite Hrun, Hsplit.
      rewrite (IH bits' r2 rest2 (out ++ seen)); [by rewrite <- app_assoc| |done..].
      rewrite Hsplit in Hkeys. by apply Forall_app in Hkeys as [_ ?].
Qed.
End unpack_more.

(** X20.  The count [T] of the header ends the decoding only inside the
    byte in which the [T]-th symbol is completed.  When more bytes follow
    a well-formed payload, [unpack] goes on after the [T] symbols and
    decodes these bytes too, from a fresh bit buffer and without a limit,
    as it decodes a whole payload under the count 0. *)
Theorem unpack_decodes_past_count (enc : encoder) (xs : list symbol)
    (payload more : list Z) (npad : nat) :
  NoDup enc.*1 ->
  prefix_code enc ->
  Forall storable enc ->
  (length enc < 256)%nat ->
  (length xs < 256)%nat ->
  Forall (fun c => c ∈ enc.*1) xs ->
  Forall is_byte payload ->
  expand payload = stream enc xs ++ replicate npad false ->
  (npad < 8)%nat ->
  unpack (header_bytes enc (Z.of_nat (length enc)) (Z.of_nat (length xs))
          ++ payload ++ more)
  = xs ++ unpack_data more 0 (decoder_from ∅ enc) (lens_from ∅ enc).
Proof.
  intros Hnd Hpc Hst Hn Ht Hkeys Hbytes Hbits Hpad.
  unfold unpack. rewrite unpack_metadata_header by done.
  pose proof (prefix_code_nodup_values enc Hnd Hpc) as Hvals.
  unfold unpack_data.
  destruct xs as [|r rest].
  - assert (payload = []) as ->; [|done].
    apply (f_equal length) in Hbits.
    rewrite expand_length, length_app, length_replicate in Hbits by done.
    destruct payload; [done|simpl in Hbits; lia].
  - rewrite (unpack_bytes_more enc (decoder_from ∅ enc) (lens_from ∅ enc))
      with (pad := replicate npad false); try done.
    + rewrite app_nil_l. apply unpack_bytes_acc.
    + by apply storable_nonempty.
    + intros k v Hkv. apply decoder_from_lookup; [done|]. by left.
    + intros k w Hw.
      apply decoder_from_lookup in Hw as [?|[_ Hw]]; [done| |done].
      by rewrite lookup_empty in Hw.
    + intros k v Hkv. apply lens_from_elem_of. right. by exists (k, v).
    + by rewrite length_replicate.
    + simpl. apply code_nonempty; [by apply storable_nonempty|].
      by apply Forall_cons in Hkeys as [? _].
Qed.

Lemma unpack_decodes_past_count_witness :
  NoDup abcd_table.*1 /\
  prefix_code abcd_table /\
  Forall storable abcd_table /\
  (length abcd_table < 256)%nat /\
  (length abcd < 256)%nat /\
  Forall (fun c => c ∈ abcd_table.*1) abcd /\
  Forall is_byte [5; 128] /\
  expand [5; 128] = stream abcd_table abcd ++ replicate 7 false /\
  (7 < 8)%nat /\
  unpack (header_bytes abcd_table (Z.of_nat (length abcd_table))
            (Z.of_nat (length abcd)) ++ [5; 128] ++ [128])
  = abcd ++ unpack_data [128] 0 (decoder_from ∅ abcd_table)
              (lens_from ∅ abcd_table).
Proof.
  assert (NoDup abcd_table.*1) as H1 by closed_decide.
  pose proof abcd_table_prefix_code as H2.
  assert (Forall storable abcd_table) as H3.
  { repeat constructor; simpl; try lia; try discriminate; vm_compute; reflexivity. }
  assert (length abcd_table < 256)%nat as H4 by (simpl; lia).
  assert (length abcd < 256)%nat as H5 by (simpl; lia).
  assert (Forall (fun c => c ∈ abcd_table.*1) abcd) as H6 by closed_decide.
  assert (Forall is_byte [5; 128]) as H7 by (repeat constructor; simpl; lia).
  assert (expand [5; 128] = stream abcd_table abcd ++ replicate 7 false) as H8
      by (vm_compute; reflexivity).
  assert (7 < 8)%nat as H9 by lia.
  split; [exact H1|]. split; [exact H2|]. split; [exact H3|].
  split; [exact H4|]. split; [exact H5|]. split; [exact H6|].
  split; [exact H7|]. split; [exact H8|]. split; [exact H9|].
  exact (unpack_decodes_past_count abcd_table abcd [5; 128] [128] 7
           H1 H2 H3 H4 H5 H6 H7 H8 H9).
Defined.

(** * The cut of a range and the table of an input *)






(** * The Kraft sum of the table *)










